(** * YouTube Music scrobbler: reconciliation and normalisation core

    A shallow embedding of [scrobble_oracle.py] and [history_manager.py]:
    the metadata-cleaning regex chains, the duration-aware duplicate guard,
    the history store and its pruning, the planning loop and the search
    stage of the candidate matcher, followed by the properties checked
    against them.

    Texts are Python [str] values restricted to code points below 256: a
    character is an [ascii] read as its code point, and the character
    classes below are Python's on that range. *)

From Stdlib Require Import ZArith Ascii.
From stdpp Require Import base option list sorting gmap strings fin_maps.

Abbreviation text := (list ascii).
Abbreviation L := String.list_ascii_of_string.

(** ** Python primitives *)

Module Py.

Definition code (c : ascii) : N := N_of_ascii c.

Definition in_range (lo hi : N) (c : ascii) : bool :=
  ((lo <=? code c) && (code c <=? hi))%N.

(** [str.isspace] and the [\s] class of [re] agree below 256. *)
Definition is_space (c : ascii) : bool :=
  in_range 9 13 c || in_range 28 32 c || in_range 133 133 c
  || in_range 160 160 c.

(** The [\w] class of [re] for [str] patterns. *)
Definition is_word (c : ascii) : bool :=
  in_range 48 57 c || in_range 65 90 c || in_range 95 95 c
  || in_range 97 122 c || in_range 170 170 c || in_range 178 179 c
  || in_range 181 181 c || in_range 185 186 c || in_range 188 190 c
  || in_range 192 214 c || in_range 216 246 c || in_range 248 255 c.

Definition is_digit (c : ascii) : bool := in_range 48 57 c.

(** [str.lower] on one character. *)
Definition lower_char (c : ascii) : ascii :=
  if in_range 65 90 c || in_range 192 214 c || in_range 216 222 c
  then ascii_of_N (code c + 32) else c.

Definition lower (s : text) : text := map lower_char s.

Fixpoint lstrip (s : text) : text :=
  match s with
  | c :: s' => if is_space c then lstrip s' else s
  | [] => []
  end.

Definition rstrip (s : text) : text := rev (lstrip (rev s)).

(** [str.strip()] *)
Definition strip (s : text) : text := rstrip (lstrip s).

(** [s.startswith(p)] *)
Fixpoint startswith (p s : text) : bool :=
  match p, s with
  | [], _ => true
  | a :: p', b :: s' => Ascii.eqb a b && startswith p' s'
  | _ :: _, [] => false
  end.

(** [s.split(sep)] for a one-character separator: never empty. *)
Fixpoint split (sep : ascii) (s : text) : list text :=
  match s with
  | [] => [[]]
  | c :: s' =>
      if Ascii.eqb c sep then [] :: split sep s'
      else match split sep s' with
           | w :: ws => (c :: w) :: ws
           | [] => [[c]]
           end
  end.

(** [sep in s] *)
Definition contains (sep : ascii) (s : text) : bool :=
  existsb (Ascii.eqb sep) s.

(** The part of [s] before its last [sep]: [s.rsplit(sep, 1)[0]]; the whole
    of [s] when [sep] does not occur. *)
Fixpoint before_last (sep : ascii) (s : text) : text :=
  match s with
  | [] => []
  | c :: s' =>
      if Ascii.eqb c sep && negb (contains sep s') then []
      else c :: before_last sep s'
  end.

(** *** Decimal text of an integer: [str(n)], [f"{n}"] *)

Definition digit_char (d : N) : ascii := ascii_of_N (48 + d).

Fixpoint digits_of_pos (fuel : nat) (n : N) (acc : text) : text :=
  match fuel with
  | O => acc
  | S fuel' =>
      let acc' := digit_char (n mod 10) :: acc in
      if (n <? 10)%N then acc' else digits_of_pos fuel' (n / 10) acc'
  end.

Definition str_of_N (n : N) : text :=
  digits_of_pos (S (N.to_nat (N.log2 n))) n [].

Definition str_of_Z (z : Z) : text :=
  match z with
  | Zneg p => "-"%char :: str_of_N (Npos p)
  | _ => str_of_N (Z.to_N z)
  end.

(** *** [int(s)] on a [str]

    Leading and trailing white space is dropped (the six ASCII blanks, and
    NEL and NBSP, which are mapped to a blank first), then an optional sign,
    then digits, where single underscores may stand between digits.  [None]
    is [ValueError].  The interpreter's limit on the number of digits of one
    conversion is not modelled. *)

Definition is_int_space (c : ascii) : bool :=
  in_range 9 13 c || in_range 32 32 c || in_range 133 133 c
  || in_range 160 160 c.

Fixpoint int_lstrip (s : text) : text :=
  match s with
  | c :: s' => if is_int_space c then int_lstrip s' else s
  | [] => []
  end.

(** [digits acc after_digit s]: value of the digit string [s] read after
    [acc]; [after_digit] says that the previous character was a digit. *)
Fixpoint digits (acc : Z) (after_digit : bool) (s : text) : option Z :=
  match s with
  | [] => if after_digit then Some acc else None
  | c :: s' =>
      if is_digit c then digits (acc * 10 + Z.of_N (code c - 48)) true s'
      else if Ascii.eqb c "_" && after_digit then digits acc false s'
      else None
  end.

Definition int_of_str (s : text) : option Z :=
  match rev (int_lstrip (rev (int_lstrip s))) with
  | c :: s' =>
      if Ascii.eqb c "-" then Z.opp <$> digits 0 false s'
      else if Ascii.eqb c "+" then digits 0 false s'
      else digits 0 false (c :: s')
  | [] => None
  end.

End Py.

(** ** Regular expressions: the fragment of [re] the program uses

    A pattern is a sequence of items: one character (a literal or a class),
    a greedy repetition of one character, the word boundary [\b] or the end
    anchor [$].  Matching backtracks as [re] does: a repetition takes as
    many characters as it can and gives them back one by one. *)

Module Re.

Inductive single :=
| Lit (c : ascii)
| Set_ (p : ascii → bool).

Inductive atom :=
| One (x : single)
| Star (x : single)
| Plus (x : single)
| WordB
| Eos.

Abbreviation regex := (list atom).

(** *** Reading a pattern *)

(** The items of a bracket class, up to the closing bracket. *)
Fixpoint parse_class (s : text) (acc : ascii → bool)
  : option ((ascii → bool) * text) :=
  match s with
  | [] => None
  | c :: s' =>
      if Ascii.eqb c "]" then Some (acc, s')
      else if Ascii.eqb c "\" then
        match s' with
        | e :: s'' =>
            let q := if Ascii.eqb e "s" then Py.is_space
                     else if Ascii.eqb e "w" then Py.is_word
                     else Ascii.eqb e in
            parse_class s'' (λ d, acc d || q d)
        | [] => None
        end
      else parse_class s' (λ d, acc d || Ascii.eqb c d)
  end.

(** One character matcher at the head of the pattern, or an anchor. *)
Definition parse_item (s : text) : option (atom * text) :=
  match s with
  | [] => None
  | c :: s' =>
      if Ascii.eqb c "\" then
        match s' with
        | e :: s'' =>
            if Ascii.eqb e "s" then Some (One (Set_ Py.is_space), s'')
            else if Ascii.eqb e "w" then Some (One (Set_ Py.is_word), s'')
            else if Ascii.eqb e "b" then Some (WordB, s'')
            else if Py.is_word e then None
            else Some (One (Lit e), s'')
        | [] => None
        end
      else if Ascii.eqb c "$" then Some (Eos, s')
      else if Ascii.eqb c "[" then
        match s' with
        | n :: s'' =>
            if Ascii.eqb n "^" then
              match parse_class s'' (λ _, false) with
              | Some (p, rest) => Some (One (Set_ (λ d, negb (p d))), rest)
              | None => None
              end
            else
              match parse_class s' (λ _, false) with
              | Some (p, rest) => Some (One (Set_ p), rest)
              | None => None
              end
        | [] => None
        end
      else if Ascii.eqb c "*" || Ascii.eqb c "+" || Ascii.eqb c "?"
              || Ascii.eqb c "(" || Ascii.eqb c ")" || Ascii.eqb c "|"
              || Ascii.eqb c "." || Ascii.eqb c "^" || Ascii.eqb c "{"
      then None
      else Some (One (Lit c), s')
  end.

(** A quantifier after a one-character item. *)
Definition quantify (a : atom) (s : text) : option (atom * text) :=
  match s with
  | q :: s' =>
      if Ascii.eqb q "*" then
        match a with One x => Some (Star x, s') | _ => None end
      else if Ascii.eqb q "+" then
        match a with One x => Some (Plus x, s') | _ => None end
      else Some (a, s)
  | [] => Some (a, s)
  end.

Fixpoint parse (fuel : nat) (s : text) : option regex :=
  match s with
  | [] => Some []
  | _ :: _ =>
      match fuel with
      | O => None
      | S fuel' =>
          '(a, s1) ← parse_item s;
          '(a', s2) ← quantify a s1;
          r ← parse fuel' s2;
          Some (a' :: r)
      end
  end.

(** [re.compile(pattern)]; [None] for syntax outside the fragment. *)
Definition compile (pattern : string) : option regex :=
  let s := L pattern in parse (length s) s.

(** *** Matching *)

Section Matching.

(** [re.IGNORECASE] *)
Variable ignorecase : bool.

Definition accepts (x : single) (d : ascii) : bool :=
  match x with
  | Lit c =>
      if ignorecase then Ascii.eqb (Py.lower_char c) (Py.lower_char d)
      else Ascii.eqb c d
  | Set_ p => p d
  end.

Definition word_before (prev : option ascii) : bool :=
  match prev with Some c => Py.is_word c | None => false end.

Definition word_after (s : text) : bool :=
  match s with c :: _ => Py.is_word c | [] => false end.

(** [\b]: exactly one side is a word character. *)
Definition at_boundary (prev : option ascii) (s : text) : bool :=
  xorb (word_before prev) (word_after s).

(** [$]: the end of the text, or just before a final newline. *)
Definition at_end (s : text) : bool :=
  match s with
  | [] => true
  | [c] => Ascii.eqb c "010"
  | _ => false
  end.

(** Greedy repetition of [x], then the continuation [k]; the result is
    the number of characters matched. *)
Fixpoint greedy (x : single) (k : option ascii → text → option nat)
    (prev : option ascii) (s : text) : option nat :=
  match s with
  | c :: s' =>
      if accepts x c then
        match greedy x k (Some c) s' with
        | Some n => Some (S n)
        | None => k prev s
        end
      else k prev s
  | [] => k prev s
  end.

(** The match of [r] starting at the head of [s], where [prev] is the
    character before it; the length of the match. *)
Fixpoint match_here (r : regex) (prev : option ascii) (s : text)
  : option nat :=
  match r with
  | [] => Some 0
  | One x :: r' =>
      match s with
      | c :: s' =>
          if accepts x c then S <$> match_here r' (Some c) s' else None
      | [] => None
      end
  | Star x :: r' => greedy x (match_here r') prev s
  | Plus x :: r' =>
      match s with
      | c :: s' =>
          if accepts x c then S <$> greedy x (match_here r') (Some c) s'
          else None
      | [] => None
      end
  | WordB :: r' => if at_boundary prev s then match_here r' prev s else None
  | Eos :: r' => if at_end s then match_here r' prev s else None
  end.

(** The scan of [re.sub]: [skip] characters of the current match are still
    to be dropped; otherwise a match is tried at the head of [s]. *)
Fixpoint sub_walk (r : regex) (repl : text) (skip : nat)
    (prev : option ascii) (s : text) : text :=
  match s with
  | [] =>
      match skip, match_here r prev [] with
      | O, Some _ => repl
      | _, _ => []
      end
  | c :: s' =>
      match skip with
      | S k => sub_walk r repl k (Some c) s'
      | O =>
          match match_here r prev s with
          | Some (S n) => repl ++ sub_walk r repl n (Some c) s'
          | Some O => repl ++ c :: sub_walk r repl 0 (Some c) s'
          | None => c :: sub_walk r repl 0 (Some c) s'
          end
      end
  end.

End Matching.

(** [re.sub(pattern, repl, s, flags)]: every non-overlapping match, leftmost
    first, replaced by [repl]. *)
Definition sub (pattern : string) (repl : text) (s : text)
    (ignorecase : bool) : text :=
  match compile pattern with
  | Some r => sub_walk ignorecase r repl 0 None s
  | None => s
  end.

(** The least number of characters a match of [r] has. *)
Fixpoint min_len (r : regex) : nat :=
  match r with
  | [] => 0
  | (One _ | Plus _) :: r' => S (min_len r')
  | (Star _ | WordB | Eos) :: r' => min_len r'
  end.

End Re.

(** ** TextNormalizer *)

Module TextNormalizer.

Definition youtube_suffixes : list string :=
  [ "\s*-\s*Topic$";
    "\s*VEVO$";
    "\s*Records$";
    "\s*Music$";
    "\s*Official$" ]%string.

Definition title_cleanups : list string :=
  [ "\s*\(Official Video\)$";
    "\s*\(Official Audio\)$";
    "\s*\(Official Music Video\)$";
    "\s*\(Lyric Video\)$";
    "\s*\(Lyrics\)$";
    "\s*\[Official Video\]$";
    "\s*\[Official Audio\]$";
    "\s*\[Lyric Video\]$";
    "\s*\[Lyrics\]$";
    "\s*\(HD\)$";
    "\s*\[HD\]$";
    "\s*\(4K\)$";
    "\s*\[4K\]$";
    "\s*\(Official Video\)\s+";
    "\s*\(Official Audio\)\s+";
    "\s*\(Official Music Video\)\s+";
    "\s*\(Lyric Video\)\s+";
    "\s*\(Lyrics\)\s+";
    "\s*\[Official Video\]\s+";
    "\s*\[Official Audio\]\s+";
    "\s*\[Lyric Video\]\s+";
    "\s*\[Lyrics\]\s+";
    "\s*\(HD\)\s+";
    "\s*\[HD\]\s+";
    "\s*\(4K\)\s+";
    "\s*\[4K\]\s+" ]%string.

(** [for p in patterns: text = re.sub(p, repl, text, flags)] *)
Definition sub_each (patterns : list string) (repl : text)
    (ignorecase : bool) (s : text) : text :=
  foldl (λ t p, Re.sub p repl t ignorecase) s patterns.

Definition clean_youtube_metadata (t : text) (is_artist : bool) : text :=
  match t with
  | [] => []
  | _ =>
      let t := Py.strip t in
      let t := sub_each youtube_suffixes [] true t in
      let t :=
        if negb is_artist then
          let end_patterns := take 13 title_cleanups in
          let t := sub_each end_patterns [] true t in
          let middle_patterns := drop 13 title_cleanups in
          sub_each middle_patterns (L " ") true t
        else t in
      Py.strip t
  end.

Definition featuring_patterns : list string :=
  [ "\s*\bfeaturing\b\s*";
    "\s*\bfeat\.\s*";
    "\s*\bfeat\b\s*";
    "\s*\bft\.\s*";
    "\s*\bft\b\s*";
    "\s*\bwith\b\s*";
    "\s*\bx\b\s*";
    "\s*\bversus\b\s*";
    "\s*\bvs\.\s*";
    "\s*\bvs\b\s*";
    "\s*\band\b\s*";
    "\s*&\s*" ]%string.

Definition normalize_featuring_artists (t : text) : text :=
  match t with
  | [] => []
  | _ =>
      let t := sub_each featuring_patterns (L " ft ") true t in
      let t := Re.sub "\s*ft\s+ft\s*" (L " ft ") t false in
      let t := Re.sub "\s+" (L " ") t false in
      Py.strip t
  end.

Definition version_patterns : list (string * string) :=
  [ ("\s*\(Radio Edit\)", " (Radio Edit)");
    ("\s*\(Extended Mix\)", " (Extended Mix)");
    ("\s*\(Club Mix\)", " (Club Mix)");
    ("\s*\(Original Mix\)", "");
    ("\s*\(Remix\)", " (Remix)");
    ("\s*\(Remaster\)", " (Remaster)");
    ("\s*\(Remastered\)", " (Remastered)");
    ("\s*\(Deluxe Edition\)", " (Deluxe Edition)");
    ("\s*\(Deluxe Version\)", " (Deluxe Edition)");
    ("\s*\(Acoustic\)", " (Acoustic)");
    ("\s*\(Live\)", " (Live)");
    ("\s*\(Instrumental\)", " (Instrumental)") ]%string.

Definition normalize_remix_versions (t : text) : text :=
  match t with
  | [] => []
  | _ =>
      Py.strip
        (foldl (λ t '(pattern, replacement),
                  Re.sub pattern (L replacement) t true)
               t version_patterns)
  end.

Definition symbol_replacements : list (string * string) :=
  [ ("\b&\b", "and");
    ("\+", "and");
    ("\s+", " ") ]%string.

Definition normalize_text (t : text) (is_artist : bool) : text :=
  match t with
  | [] => []
  | _ =>
      let t := clean_youtube_metadata t is_artist in
      let t := normalize_featuring_artists t in
      let t := if negb is_artist then normalize_remix_versions t else t in
      let t := Py.strip (Py.lower t) in
      let t :=
        foldl (λ t '(pattern, replacement),
                 Re.sub pattern (L replacement) t false)
              t symbol_replacements in
      let t := Re.sub "[^\w\s\'-]" (L " ") t false in
      let t := Re.sub "\s+" (L " ") t false in
      Py.strip t
  end.

Definition clean_track_metadata (artist title album : text)
  : text * text * text :=
  let cleaned_artist := clean_youtube_metadata artist true in
  let cleaned_title := clean_youtube_metadata title false in
  let cleaned_album := clean_youtube_metadata album false in
  let cleaned_artist := normalize_featuring_artists cleaned_artist in
  let cleaned_title := normalize_featuring_artists cleaned_title in
  let cleaned_title := normalize_remix_versions cleaned_title in
  (cleaned_artist, cleaned_title, cleaned_album).

End TextNormalizer.

(** ** Exceptions

    A computation that may raise returns [exc A]; [Raised] stands for any
    Python exception that an [except Exception] clause catches. *)

Inductive exc (A : Type) :=
| Ok (a : A)
| Raised.

Arguments Ok {A} a.
Arguments Raised {A}.

#[global] Instance exc_ret : MRet exc := λ A a, Ok a.

#[global] Instance exc_bind : MBind exc :=
  λ A B f m, match m with Ok a => f a | Raised => Raised end.

(** [try: body  except Exception: return default] *)
Definition try_except {A} (body : exc A) (default : A) : A :=
  match body with Ok a => a | Raised => default end.

(** ** Play records and their duration *)

(** The values a field of a history item can hold. *)
Inductive pyval :=
| PNone
| PInt (n : Z)
| PStr (s : text).

(** Truth value of [v] in [if v:] *)
Definition truthy (v : pyval) : bool :=
  match v with
  | PNone => false
  | PInt n => negb (n =? 0)%Z
  | PStr s => negb (bool_decide (s = []))
  end.

(** Truth value of a list *)
Definition truthy_list {A} (l : list A) : bool :=
  match l with [] => false | _ => true end.

(** [int(v)] *)
Definition py_int (v : pyval) : exc Z :=
  match v with
  | PInt n => Ok n
  | PStr s => match Py.int_of_str s with Some n => Ok n | None => Raised end
  | PNone => Raised
  end.

Module PlayRecord.

(** An item of the listening history: [videoId], [artists[0]['name']] and
    [title] are read with subscripts; [album] (the album's name),
    [duration] and [duration_seconds] with [.get], so they may be absent. *)
Record t := Make {
  videoId : text;
  artist : text;
  title : text;
  album : option text;
  duration : option pyval;
  duration_seconds : option pyval;
}.

End PlayRecord.

Module Duration.
Import PlayRecord.

#[local] Open Scope Z_scope.

Definition int_text (s : text) : exc Z := py_int (PStr s).

(** The body of the [try] block of [get_track_duration_seconds]. *)
Definition duration_body (track : PlayRecord.t) : exc Z :=
  let duration_text := default (PStr []) (duration track) in
  from_text ←
    (if truthy duration_text then
       match duration_text with
       | PStr s =>
           match Py.split ":" s with
           | [m; s] =>
               minutes ← int_text m;
               seconds ← int_text s;
               Ok (Some (minutes * 60 + seconds))
           | [h; m; s] =>
               hours ← int_text h;
               minutes ← int_text m;
               seconds ← int_text s;
               Ok (Some (hours * 3600 + minutes * 60 + seconds))
           | _ => Ok None
           end
       | _ => Raised
       end
     else Ok None);
  match from_text with
  | Some n => Ok n
  | None =>
      let duration_seconds := default PNone (duration_seconds track) in
      if truthy duration_seconds then py_int duration_seconds
      else Ok 210
  end.

Definition get_track_duration_seconds (track : PlayRecord.t) : Z :=
  try_except (duration_body track) 210.

End Duration.

(** ** The history store *)

Module History.

#[local] Open Scope Z_scope.

(** A persisted record.  [scrobbled_at] is read both with
    [.get('scrobbled_at', 0)] and with a subscript, so it may be absent. *)
Record entry := Entry {
  artist : text;
  title : text;
  album : text;
  scrobbled_at : option Z;
  duration_seconds : Z;
  youtube_url : text;
}.

Abbreviation store := (gmap text entry).

Definition TWO_WEEKS_SECONDS : Z := 14 * 24 * 60 * 60.

(** [track_data.get('scrobbled_at', 0) >= cutoff_time] *)
Definition recent (cutoff_time : Z) (track_data : entry) : bool :=
  cutoff_time <=? default 0 (scrobbled_at track_data).

(** [cleanup_old_history] of [scrobble_oracle.py]; [current_time] is
    [int(time.time())].  The count of removed entries is only logged. *)
Definition cleanup_old_history (current_time : Z) (history : store) : store :=
  let cutoff_time := current_time - TWO_WEEKS_SECONDS in
  map_fold
    (λ track_id track_data cleaned_history,
       if recent cutoff_time track_data
       then <[track_id := track_data]> cleaned_history
       else cleaned_history)
    ∅ history.

(** The listing of lines 149 to 154 of [history_manager.py]: every old
    entry is formatted with [datetime.fromtimestamp(timestamp).strftime],
    outside any [try]; [formattable ts] says that this returns for [ts]. *)
Definition listable (formattable : Z → bool)
    (old_tracks : list (text * entry)) : bool :=
  forallb
    (λ '(scrobble_key, track_data),
       formattable (default 0 (scrobbled_at track_data)))
    old_tracks.

(** [cleanup_old] of [history_manager.py]; it raises when the listing of the
    old entries does, in a dry run too. *)
Definition cleanup_old (formattable : Z → bool) (current_time : Z)
    (history : store) (dry_run : bool) : exc store :=
  let cutoff_time := current_time - TWO_WEEKS_SECONDS in
  let '(cleaned_history, old_tracks) :=
    map_fold
      (λ scrobble_key track_data '(cleaned_history, old_tracks),
         if recent cutoff_time track_data
         then (<[scrobble_key := track_data]> cleaned_history, old_tracks)
         else (cleaned_history, old_tracks ++ [(scrobble_key, track_data)]))
      (∅, []) history in
  match old_tracks with
  | [] => Ok history
  | _ =>
      if listable formattable old_tracks
      then Ok (if dry_run then history else cleaned_history)
      else Raised
  end.

(** [extract_track_id] of [history_manager.py]. *)
Definition extract_track_id (scrobble_key : text) : text :=
  if Py.contains "_" scrobble_key then Py.before_last "_" scrobble_key
  else scrobble_key.

(** [f"{track_id}_{timestamp}"] *)
Definition scrobble_key (track_id : text) (timestamp : Z) : text :=
  track_id ++ L "_" ++ Py.str_of_Z timestamp.

(** [add_to_scrobble_history], on the store that [load_scrobble_history]
    returned; the result is what [save_scrobble_history] receives. *)
Definition add_to_scrobble_history (current_time : Z)
    (track : PlayRecord.t) (timestamp : Z) (history : store) : store :=
  let track_id := PlayRecord.videoId track in
  let duration_seconds := Duration.get_track_duration_seconds track in
  let track_data :=
    {| artist := PlayRecord.artist track;
       title := PlayRecord.title track;
       album := default [] (PlayRecord.album track);
       scrobbled_at := Some timestamp;
       duration_seconds := duration_seconds;
       youtube_url := L "https://music.youtube.com/watch?v=" ++ track_id |} in
  let history := <[scrobble_key track_id timestamp := track_data]> history in
  cleanup_old_history current_time history.

(** The loop of [get_track_scrobble_timestamps] over the items of the
    store; [scrobble_data['scrobbled_at']] raises when the key is absent. *)
Fixpoint collect_timestamps (track_id : text) (items : list (text * entry))
    (timestamps : list Z) : exc (list Z) :=
  match items with
  | [] => Ok timestamps
  | (scrobble_key, scrobble_data) :: items' =>
      if Py.startswith (track_id ++ L "_") scrobble_key then
        match scrobbled_at scrobble_data with
        | Some ts => collect_timestamps track_id items' (timestamps ++ [ts])
        | None => Raised
        end
      else collect_timestamps track_id items' timestamps
  end.

Definition sorted (l : list Z) : list Z := merge_sort Z.le l.

Definition get_track_scrobble_timestamps (track_id : text)
    (scrobble_history : store) : exc (list Z) :=
  timestamps ← collect_timestamps track_id (map_to_list scrobble_history) [];
  Ok (sorted timestamps).

End History.

(** ** DuplicateGuard *)

Module Guard.

#[local] Open Scope Z_scope.

(** The [for prev_timestamp in previous_timestamps] loop of
    [can_scrobble_track]: the first violation returns. *)
Fixpoint check_gaps (proposed_timestamp min_gap_required : Z)
    (previous_timestamps : list Z) (count : nat) : bool * text :=
  match previous_timestamps with
  | [] =>
      (true,
       L "Sufficient gap from " ++ Py.str_of_Z (Z.of_nat count)
         ++ L " previous scrobbles")
  | prev_timestamp :: rest =>
      let time_gap := Z.abs (proposed_timestamp - prev_timestamp) in
      if time_gap <? min_gap_required then
        let gap_minutes := time_gap / 60 in
        let required_minutes := min_gap_required / 60 in
        (false,
         L "Too close to previous scrobble (" ++ Py.str_of_Z gap_minutes
           ++ L "m gap, need " ++ Py.str_of_Z required_minutes ++ L "m)")
      else check_gaps proposed_timestamp min_gap_required rest count
  end.

Definition can_scrobble_track (track : PlayRecord.t) (proposed_timestamp : Z)
    (scrobble_history : History.store) : exc (bool * text) :=
  let track_id := PlayRecord.videoId track in
  let track_duration := Duration.get_track_duration_seconds track in
  previous_timestamps ←
    History.get_track_scrobble_timestamps track_id scrobble_history;
  match previous_timestamps with
  | [] => Ok (true, L "No previous scrobbles found")
  | _ =>
      let min_gap_required := track_duration + 30 in
      Ok (check_gaps proposed_timestamp min_gap_required previous_timestamps
            (length previous_timestamps))
  end.

End Guard.

(** ** ReconciliationEngine *)

Module Engine.

#[local] Open Scope Z_scope.

(** [enumerate(l)] *)
Definition enumerate {A} (l : list A) : list (nat * A) :=
  imap (λ i x, (i, x)) l.

(** Line 666: the synthetic play time of the item at index [i]. *)
Definition proposed_timestamp (current_time : Z) (len : nat) (i : nat) : Z :=
  current_time - (Z.of_nat len - Z.of_nat i - 1) * 120.

(** The loop of [find_tracks_to_scrobble]; [tracks_to_scrobble] is the list
    built so far.  The store is the one the caller passed: the loop does not
    write to it. *)
Fixpoint plan_loop (current_time : Z) (len : nat)
    (scrobble_history : History.store) (items : list (nat * PlayRecord.t))
    (tracks_to_scrobble : list (PlayRecord.t * Z))
  : exc (list (PlayRecord.t * Z)) :=
  match items with
  | [] => Ok tracks_to_scrobble
  | (i, track) :: items' =>
      let proposed := proposed_timestamp current_time len i in
      '(can_scrobble, reason) ←
        Guard.can_scrobble_track track proposed scrobble_history;
      plan_loop current_time len scrobble_history items'
        (if can_scrobble : bool
         then tracks_to_scrobble ++ [(track, proposed)]
         else tracks_to_scrobble)
  end.

(** [find_tracks_to_scrobble]; [current_time] is [int(time.time())]. *)
Definition find_tracks_to_scrobble (current_time : Z)
    (ytmusic_history : list PlayRecord.t) (scrobble_history : History.store)
  : exc (list (PlayRecord.t * Z)) :=
  plan_loop current_time (length ytmusic_history) scrobble_history
    (enumerate (reverse ytmusic_history)) [].

End Engine.

(** ** CandidateMatcher: the search stage *)

Module Matcher.

#[local] Open Scope Z_scope.

(** A track of the tracking service, as far as the search stage reads it:
    [get_artist().get_name()] and [get_name()], either of which may raise. *)
Record lfm_track := LfmTrack {
  get_artist_name : exc text;
  get_name : exc text;
}.

Abbreviation query := (text * text)%type.

Section Search.

(** [W] is the state of the outside world, [R] the handle that
    [search_for_track] returns. *)
Context {W R : Type}.

Record network := Network {
  search_for_track : text → text → W → exc R * W;
  get_next_page : R → W → exc (list lfm_track) * W;
}.

Variable net : network.

(** [fuzz.ratio] of the fuzzywuzzy package: some score for two texts. *)
Variable fuzz_ratio : text → text → Z.

(** Lines 458 to 503 of [find_best_track_match]: the popularity look-ups
    and the choice by the weighted floating-point score. *)
Variable choose : list (lfm_track * Z) → W → exc (option lfm_track) * W.

(** The body of the inner [try] in the loop of [search_lastfm_tracks]:
    [None] when it raised and the track was skipped. *)
Definition score_track (search_string : text) (track : lfm_track)
  : option (lfm_track * Z) :=
  match get_artist_name track, get_name track with
  | Ok a, Ok n =>
      let track_artist := TextNormalizer.normalize_text a true in
      let track_title := TextNormalizer.normalize_text n false in
      let track_string := track_artist ++ L " " ++ track_title in
      Some (track, fuzz_ratio search_string track_string)
  | _, _ => None
  end.

(** Stable insertion by descending score. *)
Fixpoint insert_by_score (x : lfm_track * Z) (l : list (lfm_track * Z))
  : list (lfm_track * Z) :=
  match l with
  | [] => [x]
  | y :: l' => if y.2 <=? x.2 then x :: l else y :: insert_by_score x l'
  end.

(** [l.sort(key=lambda x: x[1], reverse=True)] *)
Definition sort_by_score (l : list (lfm_track * Z)) : list (lfm_track * Z) :=
  foldr insert_by_score [] l.

(** [search_lastfm_tracks]: it never raises.  [log] records the queries
    sent to [search_for_track]. *)
Definition search_lastfm_tracks (artist title : text) (limit : nat)
    (w : W) (log : list query) : list (lfm_track * Z) * W * list query :=
  let log := log ++ [(artist, title)] in
  match search_for_track net artist title w with
  | (Raised, w) => ([], w, log)
  | (Ok results, w) =>
      let normalized_search_artist := TextNormalizer.normalize_text artist true in
      let normalized_search_title := TextNormalizer.normalize_text title false in
      let search_string :=
        normalized_search_artist ++ L " " ++ normalized_search_title in
      match get_next_page net results w with
      | (Raised, w) => ([], w, log)
      | (Ok page, w) =>
          let tracks_with_scores :=
            omap (score_track search_string) (take limit page) in
          (sort_by_score tracks_with_scores, w, log)
      end
  end.

(** [find_best_track_match]: the result, the world after it and the
    queries it sent. *)
Definition find_best_track_match (artist title album : text)
    (original_artist original_title : text) (w : W)
  : exc (option lfm_track) * W * list query :=
  let '(candidates, w, log) := search_lastfm_tracks artist title 15 w [] in
  let '(candidates, w, log) :=
    if negb (truthy_list candidates) && truthy (PStr original_artist)
       && truthy (PStr original_title)
    then search_lastfm_tracks original_artist original_title 15 w log
    else (candidates, w, log) in
  match candidates with
  | [] => (Ok None, w, log)
  | best_candidate :: _ =>
      let good_candidates := filter (λ c, 80 ≤ c.2) candidates in
      match good_candidates with
      | [] =>
          if 60 <=? best_candidate.2
          then let '(r, w) := choose [best_candidate] w in (r, w, log)
          else (Ok None, w, log)
      | _ => let '(r, w) := choose good_candidates w in (r, w, log)
      end
  end.

End Search.

End Matcher.

(** ** Vocabulary of the properties *)

(** The textual duration field and what it takes for it to parse. *)
Module Spec.

#[local] Open Scope Z_scope.

(** Total seconds of the components of "M:SS" or "H:MM:SS". *)
Definition total_seconds (parts : list Z) : option Z :=
  match parts with
  | [m; s] => Some (m * 60 + s)
  | [h; m; s] => Some (h * 3600 + m * 60 + s)
  | _ => None
  end.

(** The textual field parses: two or three colon-separated integers. *)
Definition parse_duration_text (s : text) : option Z :=
  parts ← mapM Py.int_of_str (Py.split ":" s);
  total_seconds parts.

(** The number of colon-separated components is two or three. *)
Definition clock_shaped (s : text) : bool :=
  let n := length (Py.split ":" s) in
  bool_decide (n = 2%nat) || bool_decide (n = 3%nat).

(** The record has no textual duration to parse: the field is absent or
    falsy, or it is a text that is not clock-shaped. *)
Definition no_duration_text (track : PlayRecord.t) : bool :=
  match PlayRecord.duration track with
  | None | Some PNone => true
  | Some (PInt n) => bool_decide (n = 0)
  | Some (PStr s) => negb (clock_shaped s)
  end.

End Spec.

(** The words of a text: its maximal runs of characters other than blanks. *)
Definition tokens (s : text) : list text :=
  filter (λ w, w ≠ []) (Py.split " " s).

(** Two adjacent words are both "ft". *)
Fixpoint doubled_ft (ws : list text) : bool :=
  match ws with
  | a :: (b :: _) as ws' =>
      (bool_decide (a = L "ft") && bool_decide (b = L "ft")) || doubled_ft ws'
  | _ => false
  end.

(** A function on texts that returns its argument or a shorter text. *)
Definition shrinking (f : text → text) : Prop :=
  ∀ s, f s = s ∨ length (f s) < length s.

(** The pattern compiles and every match of it is longer than [repl]. *)
Definition outweighs (repl : text) (pattern : string) : bool :=
  match Re.compile pattern with
  | Some r => bool_decide (length repl < Re.min_len r)
  | None => false
  end.

(** Every entry of the store has its [scrobbled_at]. *)
Definition timestamped (h : History.store) : Prop :=
  ∀ k e, h !! k = Some e → is_Some (History.scrobbled_at e).

(** The synthetic play times of a batch, oldest first. *)
Definition assigned (current_time : Z) (ytmusic_history : list PlayRecord.t)
  : list (PlayRecord.t * Z) :=
  imap (λ i track,
          (track,
           Engine.proposed_timestamp current_time (length ytmusic_history) i))
       (reverse ytmusic_history).

(** The duplicate check of one planned play against a given store. *)
Definition admitted (h : History.store) (p : PlayRecord.t * Z) : bool :=
  match Guard.can_scrobble_track p.1 p.2 h with
  | Ok (can_scrobble, _) => can_scrobble
  | Raised => false
  end.

(** ** The prune steps of the two programs *)

#[global] Instance entry_eq_dec : EqDecision History.entry.
Proof. solve_decision. Defined.

Module Prune.

Import History.

#[local] Open Scope Z_scope.

(** Lines 711 to 719 of [main] in [scrobble_oracle.py]: the store the run
    goes on with, and what [save_scrobble_history] is given, if called. *)
Definition prune_on_start (current_time : Z) (scrobble_history : store)
  : store * option store :=
  let cleaned_history := cleanup_old_history current_time scrobble_history in
  (cleaned_history,
   if bool_decide (size cleaned_history ≠ size scrobble_history)
   then Some cleaned_history else None).

(** The [auto-cleanup] command of [history_manager.py]: what
    [save_history] is given, if called. *)
Definition auto_cleanup_command (current_time : Z) (history : store)
  : option store :=
  let cutoff_time := current_time - 14 * 24 * 60 * 60 in
  let '(cleaned_history, removed_count) :=
    map_fold
      (λ scrobble_key track_data '(cleaned_history, removed_count),
         if recent cutoff_time track_data
         then (<[scrobble_key := track_data]> cleaned_history, removed_count)
         else (cleaned_history, S removed_count))
      (∅, 0%nat) history in
  if bool_decide (0 < removed_count)%nat then Some cleaned_history else None.

(** The file after a command that saved [saved], or nothing. *)
Definition file_after (saved : option store) (file : store) : store :=
  default file saved.

End Prune.

(** Every key of the store is the key of a track id of [n] characters. *)
Definition keyed_by_ids_of_length (n : nat) (h : History.store) : Prop :=
  ∀ k e, h !! k = Some e →
         ∃ track_id ts, k = History.scrobble_key track_id ts
                        ∧ length track_id = n.

(** ** CandidateMatcher: the scoring stage *)

Module Scoring.

Import Matcher.

#[local] Open Scope Z_scope.

Section Select.

Context {W F : Type}.

(** [track.get_listener_count()], a request to the service, and whether
    [str(track)] returns, which the log line of the handler of
    [get_track_popularity] formats. *)
Variable get_listener_count : lfm_track → W → exc pyval * W.
Variable printable : lfm_track → bool.

(** Lines 488 and 491: the weighted score, a floating-point number, of a
    similarity, a popularity and the largest popularity, which raises when
    the quotient of the popularities is out of the range of such numbers;
    [>] on such numbers; and the number [-1]. *)
Variable weighted_score : Z → Z → Z → exc F.
Variable gt : F → F → bool.
Variable minus_one : F.

(** [t == best_track] on tracks of the pylast package. *)
Variable track_eq : lfm_track → lfm_track → exc bool.

Definition get_track_popularity (track : lfm_track) (w : W) : exc Z * W :=
  let '(r, w) := get_listener_count track w in
  (match
     listeners ← r; if truthy listeners then py_int listeners else Ok 0
   with
   | Ok popularity => Ok popularity
   | Raised => if printable track then Ok 0 else Raised
   end,
   w).

(** The loop of lines 462 to 473.  A candidate whose popularity look-up
    raised is skipped; a candidate is appended before its names are read for
    the log line, so a failure there does not drop it. *)
Fixpoint with_popularity (good_candidates : list (lfm_track * Z)) (w : W)
  : list (lfm_track * Z * Z) * W :=
  match good_candidates with
  | [] => ([], w)
  | (track, similarity_score) :: rest =>
      let '(popularity, w) := get_track_popularity track w in
      let '(l, w) := with_popularity rest w in
      (match popularity with
       | Ok popularity => (track, similarity_score, popularity) :: l
       | Raised => l
       end,
       w)
  end.

(** [max(pop for _, _, pop in l) if l else 1] *)
Definition max_popularity (l : list (lfm_track * Z * Z)) : Z :=
  match l with
  | [] => 1
  | (_, _, pop) :: rest => foldl Z.max pop rest.*2
  end.

(** The loop of lines 486 to 495, from the best track and score so far. *)
Fixpoint pick_best (l : list (lfm_track * Z * Z)) (max_popularity : Z)
    (best_track : option lfm_track) (best_weighted_score : F)
  : exc (option lfm_track) :=
  match l with
  | [] => Ok best_track
  | (track, similarity_score, popularity) :: rest =>
      weighted ← weighted_score similarity_score popularity max_popularity;
      if gt weighted best_weighted_score
      then pick_best rest max_popularity (Some track) weighted
      else pick_best rest max_popularity best_track best_weighted_score
  end.

(** [next(pop for t, _, pop in l if t == best_track)]; raises
    [StopIteration] when nothing is found. *)
Fixpoint next_popularity (best_track : lfm_track)
    (l : list (lfm_track * Z * Z)) : exc Z :=
  match l with
  | [] => Raised
  | (t, _, pop) :: rest =>
      same ← track_eq t best_track;
      if same : bool then Ok pop else next_popularity best_track rest
  end.

(** Lines 458 to 503 of [find_best_track_match]; a track object counts as
    true in [if best_track:]. *)
Definition select_best (good_candidates : list (lfm_track * Z)) (w : W)
  : exc (option lfm_track) * W :=
  let '(candidates_with_popularity, w) :=
    with_popularity good_candidates w in
  match candidates_with_popularity with
  | [] => (Ok None, w)
  | _ =>
      let max_popularity := max_popularity candidates_with_popularity in
      (best_track ←
         pick_best candidates_with_popularity max_popularity None minus_one;
       match best_track with
       | Some best =>
           artist_name ← get_artist_name best;
           track_name ← get_name best;
           popularity ← next_popularity best candidates_with_popularity;
           Ok (Some best)
       | None => Ok None
       end,
       w)
  end.

End Select.

End Scoring.

(** The comparison string of a pair of names. *)
Definition comparison_string (artist title : text) : text :=
  TextNormalizer.normalize_text artist true ++ L " "
    ++ TextNormalizer.normalize_text title false.

(** ** Carrying out the plan: lines 724 to 760 of [main] *)

Module Run.

#[local] Open Scope Z_scope.

(** How the loop ended: the counters of the source, the plays for which
    [scrobble_track] returned true, the world, and whether the loop ran to
    its end or was left by an exception. *)
Record loop_state {W : Type} := LoopState {
  successful_scrobbles : nat;
  most_recent_track_id : option text;
  recorded : list (PlayRecord.t * Z);
  world : W;
  completed : bool;
}.

Arguments loop_state : clear implicits.

Section Loop.

Context {W : Type}.

(** The collaborators of the loop.  [scrobble_track] catches every
    exception and returns a truth value; [load_scrobble_history] returns an
    empty store when the file cannot be read; [save_scrobble_history] only
    logs a failure; [formattable ts] says that
    [datetime.fromtimestamp(ts).strftime] returns. *)
Variable scrobble_track : PlayRecord.t → option Z → W → bool * W.
Variable time : W → Z.
Variable sleep : W → W.
Variable load_scrobble_history : W → History.store * W.
Variable save_scrobble_history : History.store → W → W.
Variable save_last_scrobbled : text → W → W.
Variable formattable : Z → bool.

(** [add_to_scrobble_history] with its file accesses. *)
Definition add_to_scrobble_history (track : PlayRecord.t) (timestamp : Z)
    (w : W) : W :=
  let '(history, w) := load_scrobble_history w in
  let cleaned_history :=
    History.add_to_scrobble_history (time w) track timestamp history in
  save_scrobble_history cleaned_history w.

(** The loop of lines 732 to 750. *)
Fixpoint scrobble_loop (tracks_to_scrobble : list (PlayRecord.t * Z))
    (st : loop_state W) : loop_state W :=
  match tracks_to_scrobble with
  | [] => st
  | (track, timestamp) :: rest =>
      if formattable timestamp then
        let '(ok, w) := scrobble_track track (Some timestamp) (world st) in
        let st :=
          if ok then
            {| successful_scrobbles := S (successful_scrobbles st);
               most_recent_track_id := Some (PlayRecord.videoId track);
               recorded := recorded st ++ [(track, timestamp)];
               world := add_to_scrobble_history track timestamp w;
               completed := true |}
          else
            {| successful_scrobbles := successful_scrobbles st;
               most_recent_track_id := most_recent_track_id st;
               recorded := recorded st;
               world := w;
               completed := true |} in
        let st :=
          match rest with
          | [] => st
          | _ =>
              {| successful_scrobbles := successful_scrobbles st;
                 most_recent_track_id := most_recent_track_id st;
                 recorded := recorded st;
                 world := sleep (world st);
                 completed := true |}
          end in
        scrobble_loop rest st
      else
        {| successful_scrobbles := successful_scrobbles st;
           most_recent_track_id := most_recent_track_id st;
           recorded := recorded st;
           world := world st;
           completed := false |}
  end.

(** Lines 724 to 760: the state at the end and the exit status of the
    program, 0 for a plain return. *)
Definition run_plan (tracks_to_scrobble : list (PlayRecord.t * Z)) (w : W)
  : loop_state W * Z :=
  let start :=
    {| successful_scrobbles := 0;
       most_recent_track_id := None;
       recorded := [];
       world := w;
       completed := true |} in
  match tracks_to_scrobble with
  | [] => (start, 0)
  | _ =>
      let st := scrobble_loop tracks_to_scrobble start in
      if completed st then
        let w :=
          match most_recent_track_id st with
          | Some track_id =>
              if truthy (PStr track_id)
              then save_last_scrobbled track_id (world st)
              else world st
          | None => world st
          end in
        ({| successful_scrobbles := successful_scrobbles st;
            most_recent_track_id := most_recent_track_id st;
            recorded := recorded st;
            world := w;
            completed := true |},
         if bool_decide (0 < successful_scrobbles st)%nat then 0 else 1)
      else (st, 1)
  end.

End Loop.

End Run.

(** ** Submitting one play: [scrobble_track] *)

Module Submit.

Import Matcher.

#[local] Open Scope Z_scope.

(** The arguments of one call of [network.scrobble]. *)
Abbreviation submission := (text * text * Z * text)%type.

Section ScrobbleTrack.

Context {W R : Type}.
Variable net : @network W R.
Variable fuzz_ratio : text → text → Z.
Variable choose : list (lfm_track * Z) → W → exc (option lfm_track) * W.

(** [int(time.time())]; [network.scrobble]; lines 532 to 535, which give
    the album of the matched track or, on any failure, the cleaned album;
    and whether [datetime.fromtimestamp(ts).strftime] returns. *)
Variable time : W → Z.
Variable scrobble : text → text → Z → text → W → exc () * W.
Variable matched_album_of : lfm_track → text → W → text * W.
Variable formattable : Z → bool.

(** [custom_timestamp or int(time.time())] *)
Definition effective_timestamp (custom_timestamp : option Z) (w : W) : Z :=
  match custom_timestamp with
  | Some t => if t =? 0 then time w else t
  | None => time w
  end.

(** The call of [network.scrobble] and the rest of the [try] block. *)
Definition submit (artist title : text) (timestamp : Z) (album : text)
    (w : W) : bool * W * list submission :=
  let '(r, w) := scrobble artist title timestamp album w in
  (match r with Ok _ => formattable timestamp | Raised => false end,
   w, [(artist, title, timestamp, album)]).

(** [scrobble_track]: its result, the world after it and the calls of
    [network.scrobble] it made. *)
Definition scrobble_track (track : PlayRecord.t)
    (custom_timestamp : option Z) (w : W) : bool * W * list submission :=
  let original_artist := PlayRecord.artist track in
  let original_title := PlayRecord.title track in
  let original_album := default [] (PlayRecord.album track) in
  let timestamp := effective_timestamp custom_timestamp w in
  let '(cleaned_artist, cleaned_title, cleaned_album) :=
    TextNormalizer.clean_track_metadata original_artist original_title
      original_album in
  let '(best_track, w, _) :=
    find_best_track_match net fuzz_ratio choose cleaned_artist cleaned_title
      cleaned_album original_artist original_title w in
  match best_track with
  | Raised => (false, w, [])
  | Ok (Some best_track) =>
      match get_artist_name best_track, get_name best_track with
      | Ok matched_artist, Ok matched_title =>
          let '(matched_album, w) :=
            matched_album_of best_track cleaned_album w in
          submit matched_artist matched_title timestamp matched_album w
      | _, _ => (false, w, [])
      end
  | Ok None => submit cleaned_artist cleaned_title timestamp cleaned_album w
  end.

End ScrobbleTrack.

End Submit.

(** ** Shapes of texts *)

(** The text starts with a white-space character. *)
Definition space_next (s : text) : bool :=
  match s with c :: _ => Py.is_space c | [] => false end.

(** Neither the first nor the last character is white space. *)
Definition stripped (s : text) : bool :=
  negb (space_next s) && negb (space_next (rev s)).

(** Every white-space character is a blank, and no two stand together. *)
Fixpoint single_spaced (s : text) : bool :=
  match s with
  | [] => true
  | c :: s' =>
      (negb (Py.is_space c) || (Ascii.eqb c " " && negb (space_next s')))
      && single_spaced s'
  end.

(** The length of the white-space run at the start of a text. *)
Fixpoint run (s : text) : nat :=
  match s with
  | c :: s' => if Py.is_space c then S (run s') else 0
  | [] => 0
  end.

(** What a comparison text is made of: word characters that [lower]
    leaves alone, blanks, apostrophes and hyphens. *)
Definition comparison_char (c : ascii) : bool :=
  (Py.is_word c || Ascii.eqb c " " || Ascii.eqb c "'" || Ascii.eqb c "-")
  && Ascii.eqb (Py.lower_char c) c.

(** ** Sample data *)

Module Sample.

#[local] Open Scope Z_scope.

Definition now : Z := 1700000000.

(** A song of 3:30 and one of 7:45. *)
Definition looped : PlayRecord.t :=
  PlayRecord.Make (L "dQw4w9WgXcQ") (L "Rick Astley")
    (L "Never Gonna Give You Up") None (Some (PStr (L "3:30"))) None.

Definition long_song : PlayRecord.t :=
  PlayRecord.Make (L "long_song") (L "Artist") (L "Long Song") None
    (Some (PStr (L "7:45"))) None.

(** A record with a raw seconds field of zero and no textual duration. *)
Definition zero_seconds : PlayRecord.t :=
  PlayRecord.Make (L "zero") (L "Artist") (L "Silence") None None
    (Some (PInt 0)).

Definition entry_at (ts : Z) : History.entry :=
  History.Entry (L "Artist") (L "Song") [] (Some ts) 210 [].

(** [looped] was scrobbled 300 seconds before [now]. *)
Definition played_before : History.store :=
  {[ History.scrobble_key (L "dQw4w9WgXcQ") (now - 300) := entry_at (now - 300) ]}.

(** [long_song] was scrobbled at 1000. *)
Definition long_at_1000 : History.store :=
  {[ History.scrobble_key (L "long_song") 1000 := entry_at 1000 ]}.

(** One entry at the retention cutoff and one a second older. *)
Definition at_the_cutoff : History.store :=
  <[ L "edge_1" := entry_at (now - 14 * 86400) ]>
    {[ L "old_1" := entry_at (now - 14 * 86400 - 1) ]}.

(** A provider that finds nothing, one that always fails, and one whose
    request fails when the page of results is fetched. *)
Definition finds_nothing : @Matcher.network () () :=
  Matcher.Network (λ _ _ w, (Ok (), w)) (λ _ w, (Ok [], w)).

Definition always_fails : @Matcher.network () () :=
  Matcher.Network (λ _ _ w, (Raised, w)) (λ _ w, (Raised, w)).

Definition page_fails : @Matcher.network () () :=
  Matcher.Network (λ _ _ w, (Ok (), w)) (λ _ w, (Raised, w)).

Definition no_score : text → text → Z := λ _ _, 0.

Definition choose_none
  : list (Matcher.lfm_track * Z) → () → exc (option Matcher.lfm_track) * () :=
  λ _ w, (Ok None, w).

End Sample.

(** ** More sample data *)

Module Example.

Import Sample.

#[local] Open Scope Z_scope.

(** An entry of a track whose id starts with "abc_". *)
Definition mixed : History.store :=
  {[ History.scrobble_key (L "abc_def") 1000 := entry_at 1000 ]}.

(** An entry of [looped] that has no [scrobbled_at]. *)
Definition untimed : History.store :=
  {[ History.scrobble_key (L "dQw4w9WgXcQ") 1000 :=
       History.Entry (L "Rick Astley") (L "Never Gonna Give You Up") [] None
         210 [] ]}.

(** What recording [looped] at [now] stores. *)
Definition looped_entry : History.entry :=
  History.Entry (L "Rick Astley") (L "Never Gonna Give You Up") []
    (Some now) 210 (L "https://music.youtube.com/watch?v=dQw4w9WgXcQ").

(** A track of the service and a provider whose page holds only it. *)
Definition gods_plan : Matcher.lfm_track :=
  Matcher.LfmTrack (Ok (L "Drake")) (Ok (L "God's Plan")).

Definition one_hit : @Matcher.network () () :=
  Matcher.Network (λ _ _ w, (Ok (), w)) (λ _ w, (Ok [gods_plan], w)).

Definition full_score : text → text → Z := λ _ _, 100.

(** A scoring stage on integers: seven parts similarity and three parts
    popularity, of ten. *)
Definition five_listeners : Matcher.lfm_track → () → exc pyval * () :=
  λ _ w, (Ok (PInt 5), w).

Definition tenths : Z → Z → Z → exc Z :=
  λ similarity popularity max_popularity,
    Ok (similarity * 7
        + (if 0 <? max_popularity
           then popularity * 100 / max_popularity else 0) * 3).

Definition same_track : Matcher.lfm_track → Matcher.lfm_track → exc bool :=
  λ _ _, Ok true.

Definition select :=
  Scoring.select_best five_listeners (λ _, true) tenths Z.gtb (-1) same_track.

(** A world that is the history file alone: every submission succeeds and
    every save takes effect. *)
Definition always_ok : PlayRecord.t → option Z → History.store
                       → bool * History.store :=
  λ _ _ w, (true, w).

Definition read_file : History.store → History.store * History.store :=
  λ w, (w, w).

Definition write_file : History.store → History.store → History.store :=
  λ s _, s.

Definition run_on_file (plan : list (PlayRecord.t * Z)) (w : History.store) :=
  Run.run_plan always_ok (λ _, now) id read_file write_file (λ _ w, w)
    (λ _, true) plan w.

(** A submission sink that accepts everything. *)
Definition accept_all : text → text → Z → text → () → exc () * () :=
  λ _ _ _ _ w, (Ok (), w).

Definition submit_looped :=
  Submit.scrobble_track finds_nothing no_score choose_none (λ _, now)
    accept_all (λ _ album w, (album, w)) (λ _, true) looped (Some now) ().

End Example.

(** * Properties *)

(** ** Python primitives *)

Section PyFacts.

Lemma code_digit_char d : (d < 10)%N → Py.code (Py.digit_char d) = (48 + d)%N.
Proof.
  intros Hd. unfold Py.code, Py.digit_char.
  apply N_ascii_embedding. lia.
Qed.

Lemma digit_char_not_underscore d :
  (d < 10)%N → Ascii.eqb "_" (Py.digit_char d) = false.
Proof.
  intros Hd. apply Ascii.eqb_neq. intros Heq.
  apply (f_equal Py.code) in Heq. rewrite code_digit_char in Heq by done.
  change (Py.code "_") with 95%N in Heq. lia.
Qed.

Lemma digits_of_pos_no_underscore fuel : ∀ n acc,
  Py.contains "_" acc = false →
  Py.contains "_" (Py.digits_of_pos fuel n acc) = false.
Proof.
  induction fuel as [|fuel IH]; intros n acc Hacc; simpl; [done|].
  assert (Py.contains "_" (Py.digit_char (n mod 10) :: acc) = false) as Hd.
  { unfold Py.contains in *. cbn [existsb]. rewrite Hacc.
    rewrite digit_char_not_underscore; [done|].
    apply N.mod_lt. lia. }
  destruct (n <? 10)%N; [done|]. by apply IH.
Qed.

(** The decimal text of an integer has no underscore. *)
Lemma str_of_Z_no_underscore z : Py.contains "_" (Py.str_of_Z z) = false.
Proof.
  destruct z as [|p|p]; unfold Py.str_of_Z, Py.str_of_N.
  - by apply digits_of_pos_no_underscore.
  - by apply digits_of_pos_no_underscore.
  - change (Py.contains "_" ("-"%char :: ?s)) with (Py.contains "_" s).
    by apply digits_of_pos_no_underscore.
Qed.

Lemma contains_app sep a b :
  Py.contains sep (a ++ b) = Py.contains sep a || Py.contains sep b.
Proof. unfold Py.contains. apply existsb_app. Qed.

(** Cutting at the last separator undoes appending a separator and a
    suffix without one. *)
Lemma before_last_app sep a s :
  Py.contains sep s = false → Py.before_last sep (a ++ sep :: s) = a.
Proof.
  intros Hs. induction a as [|c a IH]; simpl.
  - by rewrite Ascii.eqb_refl, Hs.
  - assert (Py.contains sep (a ++ sep :: s) = true) as ->.
    { rewrite contains_app. unfold Py.contains at 2. cbn [existsb].
      rewrite Ascii.eqb_refl. by rewrite orb_true_r. }
    rewrite andb_false_r. by rewrite IH.
Qed.

Lemma lstrip_length s : length (Py.lstrip s) ≤ length s.
Proof.
  induction s as [|c s IH]; simpl; [done|].
  destruct (Py.is_space c); simpl; lia.
Qed.

Lemma lstrip_shrinking : shrinking Py.lstrip.
Proof.
  intros [|c s]; simpl; [by left|].
  destruct (Py.is_space c); [right|by left].
  pose proof (lstrip_length s). simpl. lia.
Qed.

Lemma rstrip_shrinking : shrinking Py.rstrip.
Proof.
  intros s. unfold Py.rstrip.
  destruct (lstrip_shrinking (rev s)) as [Heq|Hlt].
  - left. rewrite Heq. apply rev_involutive.
  - right. rewrite length_rev in *. done.
Qed.

End PyFacts.

(** ** The store: pruning and keys *)

Section StoreFacts.

Import History.

#[local] Open Scope Z_scope.

Implicit Types h : store.

Lemma cleanup_old_history_lookup now h k e :
  cleanup_old_history now h !! k = Some e
  ↔ h !! k = Some e ∧ recent (now - TWO_WEEKS_SECONDS) e = true.
Proof.
  unfold cleanup_old_history. revert k e.
  apply (map_fold_weak_ind
           (λ r m, ∀ k e, r !! k = Some e
                          ↔ m !! k = Some e
                            ∧ recent (now - TWO_WEEKS_SECONDS) e = true)).
  - intros k e. rewrite !lookup_empty. split; [done|by intros [? _]].
  - intros i x m r Hi IH k e.
    destruct (recent (now - TWO_WEEKS_SECONDS) x) eqn:Hx;
      destruct (decide (i = k)) as [->|Hne];
      rewrite ?lookup_insert_eq, ?lookup_insert_ne by done;
      rewrite ?IH; try done.
    + split; [by intros [= <-]|by intros [? _]].
    + rewrite Hi. split; [by intros [? _]|]. intros [[= ->] ?]. congruence.
Qed.

(** The pair that the loop of [cleanup_old] builds. *)
Lemma cleanup_old_loop now h :
  let r :=
    map_fold
      (λ scrobble_key track_data '(cleaned_history, old_tracks),
         if recent (now - TWO_WEEKS_SECONDS) track_data
         then (<[scrobble_key := track_data]> cleaned_history, old_tracks)
         else (cleaned_history, old_tracks ++ [(scrobble_key, track_data)]))
      (∅, []) h in
  r.1 = cleanup_old_history now h
  ∧ (r.2 = [] → r.1 = h)
  ∧ (∀ k e, (k, e) ∈ r.2
            ↔ h !! k = Some e
              ∧ recent (now - TWO_WEEKS_SECONDS) e = false).
Proof.
  unfold cleanup_old_history.
  induction h as [|i x m Hi Hfirst IH] using map_first_key_ind.
  - rewrite !map_fold_empty. split_and!; [done..|].
    intros k e. cbn [snd]. rewrite lookup_empty. split.
    + by intros ?%elem_of_nil.
    + by intros [? _].
  - rewrite !(map_fold_insert_first_key _ _ m i x) by done.
    cbv zeta in IH. destruct IH as (IH1 & IH2 & IH3).
    destruct (map_fold _ (∅, []) m) as [cleaned old]. simpl in *.
    destruct (recent _ x) eqn:Hx; simpl.
    + split_and!; [by rewrite IH1| |].
      * intros Hold. by rewrite IH2.
      * intros k e. rewrite IH3. destruct (decide (i = k)) as [->|Hne].
        -- rewrite lookup_insert_eq, Hi. split; [by intros [? _]|].
           intros [[= ->] ?]. congruence.
        -- by rewrite lookup_insert_ne.
    + split_and!; [done| |].
      * intros Hold. by destruct old.
      * intros k e. rewrite elem_of_app, list_elem_of_singleton, IH3.
        destruct (decide (i = k)) as [->|Hne].
        -- rewrite lookup_insert_eq, Hi. split.
           ++ intros [[? _]|[= ->]]; done.
           ++ intros [[= ->] _]. by right.
        -- rewrite lookup_insert_ne by done. split.
           ++ intros [?|[= ? ?]]; [done|congruence].
           ++ intros ?. by left.
Qed.

(** The listing returns exactly when every old entry can be formatted. *)
Lemma listable_spec (formattable : Z → bool)
    (old_tracks : list (text * entry)) :
  listable formattable old_tracks = true
  ↔ ∀ k e, (k, e) ∈ old_tracks
           → formattable (default 0 (scrobbled_at e)) = true.
Proof.
  unfold listable. rewrite forallb_forall. split.
  - intros Hall k e Hin. by apply (Hall (k, e)), list_elem_of_In.
  - intros Hall [k e] Hin. by apply (Hall k e), list_elem_of_In.
Qed.

(** A forced [cleanup_old] that returns is the prune pass of the scrobbler;
    it returns exactly when every entry it removes can be listed. *)
Lemma cleanup_old_forced (formattable : Z → bool) now h :
  cleanup_old formattable now h false
  = if bool_decide
         (∀ k e, h !! k = Some e →
                 recent (now - TWO_WEEKS_SECONDS) e = false →
                 formattable (default 0 (scrobbled_at e)) = true)
    then Ok (cleanup_old_history now h)
    else Raised.
Proof.
  pose proof (cleanup_old_loop now h) as H. cbv zeta in H.
  unfold cleanup_old.
  destruct (map_fold _ (∅, []) h) as [cleaned old]. simpl in H.
  destruct H as (H1 & H2 & H3).
  assert (listable formattable old = true
          ↔ ∀ k e, h !! k = Some e →
                   recent (now - TWO_WEEKS_SECONDS) e = false →
                   formattable (default 0 (scrobbled_at e)) = true) as Hl.
  { rewrite listable_spec. split.
    - intros Hall k e Hk He. apply (Hall k). by apply H3.
    - intros Hall k e Hin. apply H3 in Hin as [Hk He]. by apply (Hall k). }
  destruct old as [|o old].
  - rewrite bool_decide_eq_true_2 by (by apply Hl).
    rewrite <- H1. f_equal. symmetry. by apply H2.
  - destruct (listable formattable (o :: old)) eqn:Hlist.
    + rewrite bool_decide_eq_true_2 by (by apply Hl). by rewrite H1.
    + rewrite bool_decide_eq_false_2; [done|].
      intros Hall. apply Hl in Hall. congruence.
Qed.

(** A dry run that returns gives the store as it was. *)
Lemma cleanup_old_dry_run (formattable : Z → bool) now h r :
  cleanup_old formattable now h true = Ok r → r = h.
Proof.
  unfold cleanup_old.
  destruct (map_fold _ (∅, []) h) as [cleaned old].
  destruct old; [by intros [= <-]|].
  destruct (listable formattable _); [by intros [= <-]|done].
Qed.

(** C5. A prune pass keeps exactly the entries whose [scrobbled_at] is at
    or after [now - 14*86400]: an entry at the cutoff stays, an entry one
    second older goes, and no entry older than the cutoff is left.  The
    forced [cleanup_old] of the history manager gives the same store when
    every entry it removes can be listed, and raises when one cannot. *)
Theorem prune_keeps_exactly_recent now h :
  (∀ k e, cleanup_old_history now h !! k = Some e
          ↔ h !! k = Some e ∧ now - 14 * 86400 ≤ default 0 (scrobbled_at e))
  ∧ (∀ k e, h !! k = Some e → scrobbled_at e = Some (now - 14 * 86400) →
            cleanup_old_history now h !! k = Some e)
  ∧ (∀ k e, h !! k = Some e → scrobbled_at e = Some (now - 14 * 86400 - 1) →
            cleanup_old_history now h !! k = None)
  ∧ (∀ k e ts, cleanup_old_history now h !! k = Some e →
               scrobbled_at e = Some ts → ¬ ts < now - 14 * 86400)
  ∧ (∀ formattable : Z → bool,
       (∀ k e, h !! k = Some e →
               default 0 (scrobbled_at e) < now - 14 * 86400 →
               formattable (default 0 (scrobbled_at e)) = true) →
       cleanup_old formattable now h false = Ok (cleanup_old_history now h))
  ∧ (∀ (formattable : Z → bool) k e,
       h !! k = Some e →
       default 0 (scrobbled_at e) < now - 14 * 86400 →
       formattable (default 0 (scrobbled_at e)) = false →
       cleanup_old formattable now h false = Raised).
Proof.
  assert (∀ k e, cleanup_old_history now h !! k = Some e
          ↔ h !! k = Some e ∧ now - 14 * 86400 ≤ default 0 (scrobbled_at e))
    as Hiff.
  { intros k e. rewrite cleanup_old_history_lookup.
    unfold recent, TWO_WEEKS_SECONDS. rewrite Z.leb_le. split; intros [? ?]; split; try done; lia. }
  assert (∀ e, recent (now - TWO_WEEKS_SECONDS) e = false
               ↔ default 0 (scrobbled_at e) < now - 14 * 86400) as Hold.
  { intros e. unfold recent, TWO_WEEKS_SECONDS. rewrite Z.leb_gt. lia. }
  split_and!; [done| | | | |].
  - intros k e Hk Hts. apply Hiff. rewrite Hts. simpl. split; [done|lia].
  - intros k e Hk Hts.
    destruct (cleanup_old_history now h !! k) as [e'|] eqn:He'; [|done].
    apply Hiff in He' as [He' Hle]. simplify_eq. rewrite Hts in Hle.
    simpl in Hle. lia.
  - intros k e ts Hk Hts. apply Hiff in Hk as [_ Hle]. rewrite Hts in Hle.
    simpl in Hle. lia.
  - intros formattable Hall. rewrite cleanup_old_forced.
    rewrite bool_decide_eq_true_2; [done|].
    intros k e Hk He. apply (Hall k); [done|]. by apply Hold.
  - intros formattable k e Hk He Hf. rewrite cleanup_old_forced.
    rewrite bool_decide_eq_false_2; [done|].
    intros Hall. rewrite (Hall k e) in Hf; [done..|]. by apply Hold.
Qed.

(** Extraction undoes appending an underscore and a suffix without one. *)
Lemma extract_track_id_suffix track_id suffix :
  Py.contains "_" suffix = false →
  extract_track_id (track_id ++ L "_" ++ suffix) = track_id.
Proof.
  intros Hts. unfold extract_track_id.
  change (L "_" ++ ?s) with ("_"%char :: s).
  assert (Py.contains "_" (track_id ++ "_"%char :: suffix) = true) as ->.
  { rewrite contains_app. unfold Py.contains at 2. cbn [existsb].
    rewrite Ascii.eqb_refl. by rewrite orb_true_r. }
  by apply before_last_app.
Qed.

(** C10. A key built from a track id and a timestamp gives the track id
    back, whatever underscores the id has, as long as the decimal text of
    the timestamp has none: the cut is at the last underscore. *)
Theorem extract_track_id_of_scrobble_key track_id timestamp :
  Py.contains "_" (Py.str_of_Z timestamp) = false →
  extract_track_id (scrobble_key track_id timestamp) = track_id.
Proof. apply extract_track_id_suffix. Qed.

(** The side condition holds for every integer timestamp. *)
Corollary extract_track_id_of_any_key track_id timestamp :
  extract_track_id (scrobble_key track_id timestamp) = track_id.
Proof. apply extract_track_id_suffix, str_of_Z_no_underscore. Qed.

End StoreFacts.

(** ** DuplicateGuard *)

Section GuardFacts.

Import History Guard.

#[local] Open Scope Z_scope.

Lemma check_gaps_rejects ts gap prev count :
  (check_gaps ts gap prev count).1 = false
  ↔ ∃ p, p ∈ prev ∧ Z.abs (ts - p) < gap.
Proof.
  induction prev as [|p prev IH]; simpl.
  - split; [done|]. intros (p & Hp & _). by apply elem_of_nil in Hp.
  - destruct (Z.ltb_spec (Z.abs (ts - p)) gap) as [Hlt|Hge]; simpl.
    + split; [|done]. intros _. exists p. split; [left|done].
    + rewrite IH. split.
      * intros (q & Hq & Hlt). exists q. split; [by right|done].
      * intros (q & Hq & Hlt). apply elem_of_cons in Hq as [->|Hq]; [lia|].
        by exists q.
Qed.

Lemma collect_timestamps_total (track_id : text)
    (items : list (text * entry)) : ∀ acc,
  (∀ k e, (k, e) ∈ items → is_Some (scrobbled_at e)) →
  ∃ l, collect_timestamps track_id items acc = Ok l.
Proof.
  induction items as [|[k e] items IH]; intros acc Hall; simpl; [by eexists|].
  destruct (Hall k e) as [ts Hts]; [left|]. rewrite Hts.
  destruct (Py.startswith _ k); apply IH; intros k' e' Hin;
    apply (Hall k' e'); by right.
Qed.

(** On a store whose entries all carry [scrobbled_at], the look-up of the
    prior timestamps of a track returns. *)
Lemma get_track_scrobble_timestamps_total (track_id : text) (h : store) :
  timestamped h → ∃ l, get_track_scrobble_timestamps track_id h = Ok l.
Proof.
  intros Hh. unfold get_track_scrobble_timestamps.
  destruct (collect_timestamps_total track_id (map_to_list h) []) as [l Hl].
  - intros k e Hin. apply elem_of_map_to_list in Hin. by apply (Hh k e).
  - rewrite Hl. by eexists.
Qed.

Lemma collect_timestamps_elem (track_id : text)
    (items : list (text * entry)) : ∀ acc l,
  collect_timestamps track_id items acc = Ok l →
  ∀ p, p ∈ l
       ↔ p ∈ acc
         ∨ ∃ k e, (k, e) ∈ items
                  ∧ Py.startswith (track_id ++ L "_") k = true
                  ∧ scrobbled_at e = Some p.
Proof.
  induction items as [|[k e] items IH]; intros acc l; simpl.
  - intros [= <-] p. split; [by left|].
    intros [?|(k & e & Hin & _)]; [done|]. by apply elem_of_nil in Hin.
  - destruct (Py.startswith _ k) eqn:Hk.
    + destruct (scrobbled_at e) as [ts|] eqn:Hts; [|done].
      intros Hl p. rewrite (IH _ _ Hl p), elem_of_app, list_elem_of_singleton.
      split.
      * intros [[?| ->]|(k' & e' & Hin & ?)]; [by left| |].
        -- right. exists k, e. split; [left|done].
        -- right. exists k', e'. split; [by right|done].
      * intros [?|(k' & e' & Hin & Hk' & He')]; [by left; left|].
        apply elem_of_cons in Hin as [[= -> ->]|Hin].
        -- left. right. congruence.
        -- right. by exists k', e'.
    + intros Hl p. rewrite (IH _ _ Hl p). split.
      * intros [?|(k' & e' & Hin & ?)]; [by left|].
        right. exists k', e'. split; [by right|done].
      * intros [?|(k' & e' & Hin & Hk' & He')]; [by left|].
        apply elem_of_cons in Hin as [[= -> ->]|Hin]; [congruence|].
        right. by exists k', e'.
Qed.

(** The prior timestamps of a track are the [scrobbled_at] of the entries
    whose key starts with the track id and an underscore, in ascending
    order. *)
Lemma get_track_scrobble_timestamps_elem (track_id : text) (h : store)
    (prev : list Z) :
  get_track_scrobble_timestamps track_id h = Ok prev →
  Sorted Z.le prev
  ∧ ∀ p, p ∈ prev
         ↔ ∃ k e, h !! k = Some e
                  ∧ Py.startswith (track_id ++ L "_") k = true
                  ∧ scrobbled_at e = Some p.
Proof.
  unfold get_track_scrobble_timestamps.
  destruct (collect_timestamps track_id (map_to_list h) []) as [l|] eqn:Hl;
    [|done].
  intros [= <-]. split.
  - unfold sorted. apply (Sorted_merge_sort Z.le).
  - intros p. unfold sorted. rewrite merge_sort_Permutation.
    rewrite (collect_timestamps_elem _ _ _ _ Hl p). split.
    + intros [Hp|(k & e & Hin & ?)]; [by apply elem_of_nil in Hp|].
      exists k, e. by rewrite <- elem_of_map_to_list.
    + intros (k & e & Hin & ?). right. exists k, e.
      by rewrite elem_of_map_to_list.
Qed.

Lemma can_scrobble_track_total (track : PlayRecord.t) (ts : Z) (h : store) :
  timestamped h → ∃ b reason, can_scrobble_track track ts h = Ok (b, reason).
Proof.
  intros Hh. unfold can_scrobble_track.
  destruct (get_track_scrobble_timestamps_total (PlayRecord.videoId track) h Hh)
    as [l Hl].
  rewrite Hl. unfold mbind, exc_bind.
  destruct l as [|p l]; [by do 2 eexists|].
  destruct (check_gaps ts _ (p :: l) _) as [b r]. by do 2 eexists.
Qed.

Lemma timestamped_empty : timestamped ∅.
Proof. intros k e Hk. by rewrite lookup_empty in Hk. Qed.

(** The verdict of [can_scrobble_track] once the prior timestamps are
    known. *)
Lemma can_scrobble_track_verdict (track : PlayRecord.t) (ts : Z) (h : store)
    (prev : list Z) :
  get_track_scrobble_timestamps (PlayRecord.videoId track) h = Ok prev →
  ∃ accept reason,
    can_scrobble_track track ts h = Ok (accept, reason)
    ∧ (accept = false
       ↔ ∃ p, p ∈ prev
              ∧ Z.abs (ts - p) < Duration.get_track_duration_seconds track + 30).
Proof.
  intros Hprev. unfold can_scrobble_track. rewrite Hprev.
  unfold mbind, exc_bind. destruct prev as [|p prev].
  - do 2 eexists. split; [done|]. split; [done|].
    intros (q & Hq & _). by apply elem_of_nil in Hq.
  - destruct (check_gaps ts _ (p :: prev) _) as [b r] eqn:Hc.
    exists b, r. split; [done|].
    rewrite <- check_gaps_rejects. by rewrite Hc.
Qed.

(** C4. With prior timestamps, [can_scrobble_track] rejects exactly when
    some prior timestamp is closer than duration + 30 seconds to the
    proposed one; a distance of exactly duration + 30 is accepted, one of
    duration + 29 is rejected, and without prior timestamps the proposal is
    accepted. *)
Theorem can_scrobble_track_gap_rule (track : PlayRecord.t) (ts : Z)
    (h : store) (prev : list Z) :
  get_track_scrobble_timestamps (PlayRecord.videoId track) h = Ok prev →
  ∃ accept reason,
    can_scrobble_track track ts h = Ok (accept, reason)
    ∧ (prev ≠ [] →
       (accept = false
        ↔ ∃ p, p ∈ prev
               ∧ Z.abs (ts - p)
                 < Duration.get_track_duration_seconds track + 30))
    ∧ (prev = [] → accept = true)
    ∧ (∀ p, prev = [p] →
            Z.abs (ts - p) = Duration.get_track_duration_seconds track + 30 →
            accept = true)
    ∧ (∀ p, p ∈ prev →
            Z.abs (ts - p) = Duration.get_track_duration_seconds track + 29 →
            accept = false).
Proof.
  intros Hprev.
  destruct (can_scrobble_track_verdict track ts h prev Hprev)
    as (accept & reason & Hcan & Hiff).
  exists accept, reason. split_and!; [done|done| | |].
  - intros ->. destruct accept; [done|].
    destruct Hiff as [Hiff _]. destruct (Hiff eq_refl) as (q & Hq & _).
    by apply elem_of_nil in Hq.
  - intros p -> Hgap. destruct accept; [done|].
    destruct Hiff as [Hiff _]. destruct (Hiff eq_refl) as (q & Hq & Hlt).
    apply list_elem_of_singleton in Hq as ->. lia.
  - intros p Hp Hgap. apply Hiff. exists p. split; [done|lia].
Qed.

End GuardFacts.

(** ** ReconciliationEngine *)

Section EngineFacts.

Import History Guard Engine.

#[local] Open Scope Z_scope.

Lemma assigned_enumerate (now : Z) (batch : list PlayRecord.t) :
  assigned now batch
  = (λ it : nat * PlayRecord.t,
       (it.2, proposed_timestamp now (length batch) it.1))
    <$> enumerate (reverse batch).
Proof.
  unfold assigned, enumerate. rewrite fmap_imap. by apply imap_ext.
Qed.

(** The loop keeps what it had and appends the items that pass the check
    against the store it was given. *)
Lemma plan_loop_filter (now : Z) (len : nat) (h : store) (Hh : timestamped h) :
  ∀ (items : list (nat * PlayRecord.t)) (acc : list (PlayRecord.t * Z)),
  plan_loop now len h items acc
  = Ok (acc ++ filter (λ p, admitted h p)
                 ((λ it : nat * PlayRecord.t,
                     (it.2, proposed_timestamp now len it.1)) <$> items)).
Proof.
  induction items as [|[i track] items IH]; intros acc.
  - simpl. by rewrite app_nil_r.
  - cbn [plan_loop fmap list_fmap].
    destruct (can_scrobble_track_total track (proposed_timestamp now len i) h Hh)
      as (b & reason & Hcan).
    rewrite Hcan. unfold mbind at 1, exc_bind at 1. cbv beta iota.
    rewrite IH. rewrite filter_cons. cbn [fst snd].
    assert (admitted h (track, proposed_timestamp now len i) = b) as ->.
    { unfold admitted. cbn [fst snd]. by rewrite Hcan. }
    destruct b; simpl.
    + by rewrite <- app_assoc.
    + done.
Qed.

Lemma find_tracks_to_scrobble_filter (now : Z) (batch : list PlayRecord.t)
    (h : store) :
  timestamped h →
  find_tracks_to_scrobble now batch h
  = Ok (filter (λ p, admitted h p) (assigned now batch)).
Proof.
  intros Hh. unfold find_tracks_to_scrobble.
  rewrite plan_loop_filter by done. by rewrite assigned_enumerate.
Qed.

Lemma admitted_empty (p : PlayRecord.t * Z) : admitted ∅ p = true.
Proof. done. Qed.

Lemma find_tracks_to_scrobble_empty (now : Z) (batch : list PlayRecord.t) :
  find_tracks_to_scrobble now batch ∅ = Ok (assigned now batch).
Proof.
  rewrite find_tracks_to_scrobble_filter by apply timestamped_empty.
  f_equal. induction (assigned now batch) as [|p l IH]; [done|].
  rewrite filter_cons, IH. by rewrite admitted_empty.
Qed.

Lemma assigned_lookup (now : Z) (batch : list PlayRecord.t) (i : nat) :
  assigned now batch !! i
  = (λ track, (track, now - (Z.of_nat (length batch) - Z.of_nat i - 1) * 120))
    <$> reverse batch !! i.
Proof. unfold assigned. by rewrite list_lookup_imap. Qed.

(** C1, as the code has it.  The plan holds exactly the plays whose
    synthetic timestamp passes the duplicate check against the store that
    was passed in, in processing order; plays accepted earlier in the same
    run are not consulted.  With an empty store every play of the batch is
    planned. *)
Theorem plan_consults_only_the_given_store (now : Z) (batch : list PlayRecord.t)
    (h : store) :
  timestamped h →
  find_tracks_to_scrobble now batch h
  = Ok (filter (λ p, admitted h p) (assigned now batch))
  ∧ find_tracks_to_scrobble now batch ∅ = Ok (assigned now batch).
Proof.
  intros Hh. split.
  - by apply find_tracks_to_scrobble_filter.
  - apply find_tracks_to_scrobble_empty.
Qed.

(** C9. The play at index [i] of the reversed batch of length [N] gets the
    timestamp [now - (N - i - 1) * 120]: the timestamps increase strictly in
    processing order, neighbours are 120 seconds apart, the last play gets
    [now], and the plan is drawn from these pairs in order. *)
Theorem proposed_timestamps_spaced (now : Z) (batch : list PlayRecord.t) :
  (∀ i track, reverse batch !! i = Some track →
     assigned now batch !! i
     = Some (track, now - (Z.of_nat (length batch) - Z.of_nat i - 1) * 120))
  ∧ (∀ i j p q, (i < j)%nat → assigned now batch !! i = Some p →
       assigned now batch !! j = Some q → p.2 < q.2)
  ∧ (∀ i p q, assigned now batch !! i = Some p →
       assigned now batch !! S i = Some q → q.2 = p.2 + 120)
  ∧ (∀ p, last (assigned now batch) = Some p → p.2 = now)
  ∧ (∀ h : store, timestamped h →
       ∃ plan, find_tracks_to_scrobble now batch h = Ok plan
               ∧ sublist plan (assigned now batch))
  ∧ find_tracks_to_scrobble now batch ∅ = Ok (assigned now batch).
Proof.
  split_and!.
  - intros i track Hi. by rewrite assigned_lookup, Hi.
  - intros i j p q Hij Hp Hq. rewrite assigned_lookup in Hp, Hq.
    destruct (reverse batch !! i); [|done].
    destruct (reverse batch !! j); [|done].
    simpl in *. simplify_eq. simpl. lia.
  - intros i p q Hp Hq. rewrite assigned_lookup in Hp, Hq.
    destruct (reverse batch !! i); [|done].
    destruct (reverse batch !! S i); [|done].
    simpl in *. simplify_eq. simpl. lia.
  - intros p Hp. rewrite last_lookup in Hp. rewrite assigned_lookup in Hp.
    unfold assigned in Hp. rewrite length_imap, length_reverse in Hp.
    destruct (reverse batch !! _) eqn:Hl; [|done].
    apply lookup_lt_Some in Hl. rewrite length_reverse in Hl.
    simpl in *. simplify_eq. simpl. lia.
  - intros h Hh. eexists. split; [by apply find_tracks_to_scrobble_filter|].
    apply sublist_filter.
  - apply find_tracks_to_scrobble_empty.
Qed.

End EngineFacts.

(** ** Duration extraction *)

Section DurationFacts.

Import PlayRecord Duration Spec.

#[local] Open Scope Z_scope.

(** The [try] block on a textual field. *)
Lemma duration_body_text (track : PlayRecord.t) (s : text) :
  duration track = Some (PStr s) →
  duration_body track =
    if clock_shaped s then
      match parse_duration_text s with
      | Some n => Ok n
      | None => Raised
      end
    else
      let duration_seconds := default PNone (duration_seconds track) in
      if truthy duration_seconds then py_int duration_seconds else Ok 210.
Proof.
  intros Hd. unfold duration_body, parse_duration_text, clock_shaped.
  rewrite Hd. cbn [default from_option id].
  destruct s as [|c s]; [done|].
  change (truthy (PStr (c :: s))) with true. cbv beta iota.
  destruct (Py.split ":" (c :: s)) as [|x1 [|x2 [|x3 [|x4 parts]]]];
    try done; unfold int_text, py_int; simpl;
    destruct (Py.int_of_str x1); simpl; try done;
    destruct (Py.int_of_str x2); simpl; try done;
    destruct (Py.int_of_str x3); simpl; try done.
Qed.

(** The [try] block when there is no textual field to parse. *)
Lemma duration_body_no_text (track : PlayRecord.t) :
  no_duration_text track = true →
  duration_body track =
    let duration_seconds := default PNone (duration_seconds track) in
    if truthy duration_seconds then py_int duration_seconds else Ok 210.
Proof.
  unfold no_duration_text. intros Hno.
  destruct (duration track) as [[|n|s]|] eqn:Hd.
  - unfold duration_body. by rewrite Hd.
  - apply bool_decide_eq_true in Hno as ->. unfold duration_body.
    by rewrite Hd.
  - rewrite (duration_body_text track s Hd).
    by destruct (clock_shaped s).
  - unfold duration_body. by rewrite Hd.
Qed.

(** C7, as the code has it.  [get_track_duration_seconds] always returns:
    a textual field of two or three integer components gives its total
    seconds; a textual field of two or three components of which one is not
    an integer gives 210, whatever the raw seconds field holds, and so does
    a truthy field that is not a text; without a textual field to parse, a
    raw seconds field that is a non-zero integer is returned, and a raw
    seconds field that is absent, [None] or zero gives 210. *)
Theorem get_track_duration_seconds_cases (track : PlayRecord.t) :
  (∀ s n, duration track = Some (PStr s) →
          parse_duration_text s = Some n →
          get_track_duration_seconds track = n)
  ∧ (∀ s, duration track = Some (PStr s) → clock_shaped s = true →
          parse_duration_text s = None →
          get_track_duration_seconds track = 210)
  ∧ (∀ n, duration track = Some (PInt n) → n ≠ 0 →
          get_track_duration_seconds track = 210)
  ∧ (∀ n, no_duration_text track = true →
          duration_seconds track = Some (PInt n) → n ≠ 0 →
          get_track_duration_seconds track = n)
  ∧ (no_duration_text track = true →
     duration_seconds track ∈ [None; Some PNone; Some (PInt 0)] →
     get_track_duration_seconds track = 210).
Proof.
  unfold get_track_duration_seconds. split_and!.
  - intros s n Hd Hp. rewrite (duration_body_text track s Hd), Hp.
    destruct (clock_shaped s) eqn:Hc; [done|].
    unfold parse_duration_text, clock_shaped in *.
    destruct (Py.split ":" s) as [|x1 [|x2 [|x3 [|x4 parts]]]]; try done;
      simpl in Hp;
      repeat (match type of Hp with
              | context [Py.int_of_str ?x] => destruct (Py.int_of_str x)
              end; simpl in Hp; try done);
      destruct (mapM Py.int_of_str parts); done.
  - intros s Hd Hc Hp. by rewrite (duration_body_text track s Hd), Hc, Hp.
  - intros n Hd Hn. unfold duration_body. rewrite Hd.
    cbn [default from_option id truthy].
    by rewrite (proj2 (Z.eqb_neq n 0)) by done.
  - intros n Hno Hr Hn. rewrite duration_body_no_text by done.
    rewrite Hr. cbn [default from_option id truthy py_int].
    by rewrite (proj2 (Z.eqb_neq n 0)) by done.
  - intros Hno Hr. rewrite duration_body_no_text by done.
    repeat (apply elem_of_cons in Hr as [->|Hr]; [done|]).
    by apply elem_of_nil in Hr.
Qed.

End DurationFacts.

(** ** Substitution never lengthens a text when matches outweigh the
    replacement *)

Section ReFacts.

Import Re.

Variable ignorecase : bool.

Lemma greedy_bounds x (k : option ascii → text → option nat) (a : nat) :
  (∀ prev s n, k prev s = Some n → a ≤ n ≤ length s) →
  ∀ s prev n, greedy ignorecase x k prev s = Some n → a ≤ n ≤ length s.
Proof.
  intros Hk. induction s as [|c s IH]; intros prev n; simpl.
  - apply Hk.
  - destruct (accepts ignorecase x c); [|apply Hk].
    destruct (greedy ignorecase x k (Some c) s) as [m|] eqn:Hg.
    + intros [= <-]. apply IH in Hg. lia.
    + apply Hk.
Qed.

(** A match has at least [min_len r] characters and stays inside the
    text. *)
Lemma match_here_bounds r : ∀ prev s n,
  match_here ignorecase r prev s = Some n → min_len r ≤ n ≤ length s.
Proof.
  induction r as [|a r IH]; intros prev s n; simpl.
  - intros [= <-]. lia.
  - destruct a as [x|x|x| |].
    + destruct s as [|c s]; [done|]. destruct (accepts ignorecase x c); [|done].
      destruct (match_here ignorecase r (Some c) s) as [m|] eqn:Hm; [|done].
      intros [= <-]. apply IH in Hm. simpl. lia.
    + intros Hg. apply (greedy_bounds x _ (min_len r)) in Hg; [done|].
      apply IH.
    + destruct s as [|c s]; [done|]. destruct (accepts ignorecase x c); [|done].
      destruct (greedy ignorecase x _ (Some c) s) as [m|] eqn:Hg; [|done].
      intros [= <-].
      apply (greedy_bounds x _ (min_len r)) in Hg; [simpl; lia|]. apply IH.
    + destruct (at_boundary prev s); [apply IH|done].
    + destruct (at_end s); [apply IH|done].
Qed.

Lemma sub_walk_length r (repl : text) :
  length repl < min_len r →
  ∀ s skip prev, skip ≤ length s →
    length (sub_walk ignorecase r repl skip prev s) + skip ≤ length s.
Proof.
  intros Hr. induction s as [|c s IH]; intros skip prev Hskip; simpl in *.
  - destruct skip; [|lia].
    destruct (match_here ignorecase r prev []) as [n|] eqn:Hm; [|simpl; lia].
    apply match_here_bounds in Hm. simpl in Hm. lia.
  - destruct skip as [|k].
    + destruct (match_here ignorecase r prev (c :: s)) as [[|n]|] eqn:Hm.
      * apply match_here_bounds in Hm. lia.
      * apply match_here_bounds in Hm. simpl in Hm.
        rewrite length_app. specialize (IH n (Some c)). lia.
      * simpl. specialize (IH 0 (Some c)). lia.
    + specialize (IH k (Some c)). lia.
Qed.

Lemma sub_walk_shrinking r (repl : text) :
  length repl < min_len r →
  ∀ s prev, sub_walk ignorecase r repl 0 prev s = s
            ∨ length (sub_walk ignorecase r repl 0 prev s) < length s.
Proof.
  intros Hr. induction s as [|c s IH]; intros prev; simpl.
  - destruct (match_here ignorecase r prev []) as [n|] eqn:Hm; [|by left].
    apply match_here_bounds in Hm. simpl in Hm. lia.
  - destruct (match_here ignorecase r prev (c :: s)) as [[|n]|] eqn:Hm.
    + apply match_here_bounds in Hm. lia.
    + right. apply match_here_bounds in Hm. simpl in Hm.
      rewrite length_app.
      pose proof (sub_walk_length r repl Hr s n (Some c)). lia.
    + destruct (IH (Some c)) as [->|Hlt]; [by left|right]. simpl. lia.
Qed.

End ReFacts.

Section NormalizerFacts.

Import Re TextNormalizer.

(** Every pattern of the normalizer is in the fragment. *)
Lemma patterns_compile :
  forallb (λ p, bool_decide (is_Some (compile p)))
    (youtube_suffixes ++ title_cleanups ++ featuring_patterns
     ++ version_patterns.*1 ++ symbol_replacements.*1
     ++ ["\s*ft\s+ft\s*"; "\s+"; "[^\w\s\'-]"]%string)
  = true.
Proof. by vm_compute. Qed.

Lemma shrinking_compose (f g : text → text) :
  shrinking f → shrinking g → shrinking (λ s, g (f s)).
Proof.
  intros Hf Hg s. destruct (Hf s) as [Hfs|Hfs], (Hg (f s)) as [Hgs|Hgs].
  - left. by rewrite Hgs.
  - right. by rewrite <- Hfs at 2.
  - right. by rewrite Hgs.
  - right. lia.
Qed.

Lemma sub_shrinking (pattern : string) (repl : text) (ic : bool) :
  outweighs repl pattern = true → shrinking (λ s, sub pattern repl s ic).
Proof.
  unfold outweighs, sub. intros Hp s.
  destruct (compile pattern) as [r|]; [|done].
  apply bool_decide_eq_true in Hp. by apply sub_walk_shrinking.
Qed.

Lemma sub_each_shrinking (patterns : list string) (repl : text) (ic : bool) :
  forallb (outweighs repl) patterns = true →
  shrinking (sub_each patterns repl ic).
Proof.
  unfold sub_each. induction patterns as [|p patterns IH]; simpl.
  - intros _ s. by left.
  - intros [Hp Hps]%andb_true_iff.
    apply (shrinking_compose (λ s, sub p repl s ic)
             (λ s, foldl (λ t q, sub q repl t ic) s patterns)).
    + by apply sub_shrinking.
    + by apply IH.
Qed.

Lemma strip_shrinking : shrinking Py.strip.
Proof.
  apply (shrinking_compose Py.lstrip Py.rstrip).
  - apply lstrip_shrinking.
  - apply rstrip_shrinking.
Qed.

Lemma clean_youtube_metadata_shrinking (is_artist : bool) :
  shrinking (λ t, clean_youtube_metadata t is_artist).
Proof.
  intros t. unfold clean_youtube_metadata.
  destruct t as [|c t]; [by left|]. generalize (c :: t) as s. clear c t.
  assert (shrinking (sub_each youtube_suffixes [] true)) as Hsuffix
    by by apply sub_each_shrinking.
  assert (shrinking (sub_each (take 13 title_cleanups) [] true)) as Hend
    by by apply sub_each_shrinking.
  assert (shrinking (sub_each (drop 13 title_cleanups) (L " ") true))
    as Hmiddle by by apply sub_each_shrinking.
  pose proof strip_shrinking as Hstrip.
  destruct is_artist; cbn [negb].
  - apply (shrinking_compose
             (λ s, sub_each youtube_suffixes [] true (Py.strip s)) Py.strip);
      [|done].
    by apply (shrinking_compose Py.strip (sub_each youtube_suffixes [] true)).
  - apply (shrinking_compose
             (λ s, sub_each (drop 13 title_cleanups) (L " ") true
                     (sub_each (take 13 title_cleanups) [] true
                        (sub_each youtube_suffixes [] true (Py.strip s))))
             Py.strip); [|done].
    apply (shrinking_compose
             (λ s, sub_each (take 13 title_cleanups) [] true
                     (sub_each youtube_suffixes [] true (Py.strip s)))
             (sub_each (drop 13 title_cleanups) (L " ") true)); [|done].
    apply (shrinking_compose
             (λ s, sub_each youtube_suffixes [] true (Py.strip s))
             (sub_each (take 13 title_cleanups) [] true)); [|done].
    by apply (shrinking_compose Py.strip (sub_each youtube_suffixes [] true)).
Qed.

(** A shrinking function applied over and over comes to rest within as many
    steps as the text has characters. *)
Lemma shrinking_iter_fixed (f : text → text) :
  shrinking f →
  ∀ n s, length s ≤ n → f (Nat.iter n f s) = Nat.iter n f s.
Proof.
  intros Hf. induction n as [|n IH]; intros s Hs.
  - destruct s; [|simpl in Hs; lia]. simpl.
    destruct (Hf []) as [?|Hlt]; [done|simpl in Hlt; lia].
  - destruct (Hf s) as [Heq|Hlt].
    + assert (∀ m, Nat.iter m f s = s) as Hm.
      { induction m as [|m IHm]; [done|]. simpl. by rewrite IHm. }
      by rewrite !Hm.
    + rewrite Nat.iter_succ_r. apply IH. lia.
Qed.

(** C2, as the code has it.  One application of [clean_youtube_metadata]
    returns its input or a strictly shorter text, for either value of the
    flag, so repeating it reaches a text it leaves alone after at most as
    many applications as the input has characters. *)
Theorem clean_youtube_metadata_comes_to_rest (T : text) (is_artist : bool) :
  (clean_youtube_metadata T is_artist = T
   ∨ length (clean_youtube_metadata T is_artist) < length T)
  ∧ clean_youtube_metadata
      (Nat.iter (length T) (λ t, clean_youtube_metadata t is_artist) T)
      is_artist
    = Nat.iter (length T) (λ t, clean_youtube_metadata t is_artist) T.
Proof.
  split.
  - apply clean_youtube_metadata_shrinking.
  - apply (shrinking_iter_fixed (λ t, clean_youtube_metadata t is_artist));
      [apply clean_youtube_metadata_shrinking|done].
Qed.

End NormalizerFacts.

(** ** CandidateMatcher: the search stage *)

Section MatcherFacts.

Import Matcher.

Context {W R : Type}.
Variable net : @network W R.
Variable fuzz_ratio : text → text → Z.
Variable choose : list (lfm_track * Z) → W → exc (option lfm_track) * W.

Abbreviation search_with := (search_lastfm_tracks net fuzz_ratio).
Abbreviation find_with := (find_best_track_match net fuzz_ratio choose).

(** Every call of [search_lastfm_tracks] sends exactly one query. *)
Lemma search_log (artist title : text) (limit : nat) (w : W)
    (log : list query) :
  (search_with artist title limit w log).2 = log ++ [(artist, title)].
Proof.
  unfold search_lastfm_tracks.
  destruct (search_for_track net artist title w) as [[results|] w1]; [|done].
  by destruct (get_next_page net results w1) as [[page|] w2].
Qed.

Lemma search_raised (artist title : text) (limit : nat) (w : W)
    (log : list query) :
  (search_for_track net artist title w).1 = Raised →
  (search_with artist title limit w log).1.1 = [].
Proof.
  unfold search_lastfm_tracks.
  destruct (search_for_track net artist title w) as [[results|] w1]; [done|].
  done.
Qed.

(** The queries of [find_best_track_match], by the outcome of the first
    search. *)
Lemma find_log (artist title album original_artist original_title : text)
    (w : W) :
  (find_with artist title album original_artist original_title w).2
  = if negb (truthy_list (search_with artist title 15 w []).1.1)
       && truthy (PStr original_artist) && truthy (PStr original_title)
    then [(artist, title); (original_artist, original_title)]
    else [(artist, title)].
Proof.
  unfold find_best_track_match.
  pose proof (search_log artist title 15 w []) as Hlog1.
  destruct (search_with artist title 15 w []) as [[cands w1] log1].
  simpl in Hlog1. subst log1. cbn [fst snd].
  destruct (negb (truthy_list cands) && truthy (PStr original_artist)
            && truthy (PStr original_title)) eqn:Hretry.
  - pose proof (search_log original_artist original_title 15 w1
                  ([] ++ [(artist, title)])) as Hlog2.
    destruct (search_with original_artist original_title 15 w1 _)
      as [[cands2 w2] log2].
    simpl in Hlog2. subst log2.
    destruct cands2 as [|best cands2]; [done|].
    destruct (filter _ (best :: cands2)).
    + destruct (60 <=? best.2)%Z; [|done]. by destruct (choose [best] w2).
    + by destruct (choose _ w2).
  - destruct cands as [|best cands]; [done|].
    destruct (filter _ (best :: cands)).
    + destruct (60 <=? best.2)%Z; [|done]. by destruct (choose [best] w1).
    + by destruct (choose _ w1).
Qed.

(** No candidates at the end of the search stage: no match. *)
Lemma find_none (artist title album original_artist original_title : text)
    (w : W) :
  (search_with artist title 15 w []).1.1 = [] →
  (truthy (PStr original_artist) && truthy (PStr original_title) = true →
   (search_with original_artist original_title 15
      (search_with artist title 15 w []).1.2 (search_with artist title 15 w []).2).1.1
   = []) →
  (find_with artist title album original_artist original_title w).1.1 = Ok None.
Proof.
  unfold find_best_track_match.
  destruct (search_with artist title 15 w []) as [[cands w1] log1].
  cbn [fst snd]. intros -> Hsecond. cbn [truthy_list negb andb].
  destruct (truthy (PStr original_artist) && truthy (PStr original_title));
    [|done].
  specialize (Hsecond eq_refl).
  destruct (search_with original_artist original_title 15 w1 log1)
    as [[cands2 w2] log2].
  cbn [fst snd] in Hsecond. by subst cands2.
Qed.

(** C6, as the code has it.  The fallback query is sent exactly when the
    first search gave no candidate and both fallback fields are non-empty,
    whether or not the fallback differs from the cleaned metadata; otherwise
    the cleaned query is the only one. *)
Theorem retry_with_supplied_fallback
    (artist title album original_artist original_title : text) (w : W) :
  ((search_lastfm_tracks net fuzz_ratio artist title 15 w []).1.1 = []
   ∧ original_artist ≠ [] ∧ original_title ≠ [] →
   (find_best_track_match net fuzz_ratio choose artist title album original_artist original_title w).2
   = [(artist, title); (original_artist, original_title)])
  ∧ ((search_lastfm_tracks net fuzz_ratio artist title 15 w []).1.1 ≠ []
     ∨ original_artist = [] ∨ original_title = [] →
     (find_best_track_match net fuzz_ratio choose artist title album original_artist original_title w).2
     = [(artist, title)]).
Proof.
  rewrite find_log. split.
  - intros (-> & Ha & Ht). by destruct original_artist, original_title.
  - intros [Hc|[->| ->]].
    + by destruct (search_lastfm_tracks net fuzz_ratio artist title 15 w []).1.1.
    + by rewrite andb_false_r.
    + by rewrite andb_false_r.
Qed.

(** A search whose request raises, whose page cannot be fetched or whose
    page is empty gives no candidate. *)
Lemma search_failed (artist title : text) (limit : nat) (w : W)
    (log : list query) :
  (search_for_track net artist title w).1 = Raised
  ∨ (∃ results w1,
       search_for_track net artist title w = (Ok results, w1)
       ∧ ((get_next_page net results w1).1 = Raised
          ∨ (get_next_page net results w1).1 = Ok [])) →
  (search_with artist title limit w log).1.1 = [].
Proof.
  intros [Hs|(results & w1 & Hs & Hp)]; [by apply search_raised|].
  unfold search_lastfm_tracks. rewrite Hs.
  destruct (get_next_page net results w1) as [[page|] w2]; [|done].
  destruct Hp as [Hp|Hp]; [done|]. simpl in Hp. injection Hp as ->.
  by rewrite take_nil.
Qed.

(** C8. An exception of the provider during a search, at the request or
    when the page of results is fetched, is caught and counts as zero
    candidates, and so does an empty page.  [find_best_track_match] returns
    no match and does not raise: with no candidates and no fallback
    metadata; with a provider all of whose searches fail or are empty,
    whatever fallback is supplied; and whenever the first search, and the
    fallback search if one is made, give no candidate. *)
Theorem no_match_instead_of_raising :
  (∀ (artist title : text) limit w log,
     (search_for_track net artist title w).1 = Raised →
     (search_lastfm_tracks net fuzz_ratio artist title limit w log).1.1 = [])
  ∧ (∀ (artist title : text) limit w log results w1,
       search_for_track net artist title w = (Ok results, w1) →
       (get_next_page net results w1).1 = Raised
       ∨ (get_next_page net results w1).1 = Ok [] →
       (search_lastfm_tracks net fuzz_ratio artist title limit w log).1.1 = [])
  ∧ (∀ (artist title album original_artist original_title : text) w,
       (search_lastfm_tracks net fuzz_ratio artist title 15 w []).1.1 = [] →
       original_artist = [] ∨ original_title = [] →
       (find_best_track_match net fuzz_ratio choose artist title album original_artist original_title w).1.1
       = Ok None)
  ∧ ((∀ (a t : text) w,
        (search_for_track net a t w).1 = Raised
        ∨ (∃ results w1,
             search_for_track net a t w = (Ok results, w1)
             ∧ ((get_next_page net results w1).1 = Raised
                ∨ (get_next_page net results w1).1 = Ok []))) →
     ∀ (artist title album original_artist original_title : text) w,
       (find_best_track_match net fuzz_ratio choose artist title album original_artist original_title w).1.1
       = Ok None)
  ∧ (∀ (artist title album original_artist original_title : text) w,
       (search_lastfm_tracks net fuzz_ratio artist title 15 w []).1.1 = [] →
       (original_artist ≠ [] → original_title ≠ [] →
        (search_lastfm_tracks net fuzz_ratio original_artist original_title 15
           (search_lastfm_tracks net fuzz_ratio artist title 15 w []).1.2
           (search_lastfm_tracks net fuzz_ratio artist title 15 w []).2).1.1
        = []) →
       (find_best_track_match net fuzz_ratio choose artist title album original_artist original_title w).1.1
       = Ok None).
Proof.
  split_and!.
  - intros. by apply search_raised.
  - intros artist title limit w log results w1 Hs Hp.
    apply search_failed. right. by exists results, w1.
  - intros artist title album original_artist original_title w Hfirst Hno.
    apply find_none; [done|].
    destruct Hno as [-> | ->]; [done|]. by rewrite andb_false_r.
  - intros Hfail artist title album original_artist original_title w.
    apply find_none.
    + apply search_failed, Hfail.
    + intros _. apply search_failed, Hfail.
  - intros artist title album original_artist original_title w Hfirst Hsecond.
    apply find_none; [done|].
    intros Hsupplied. apply andb_true_iff in Hsupplied as [Ha Ht].
    apply Hsecond; intros ->; done.
Qed.

End MatcherFacts.

(** ** The properties on sample data *)

Section Samples.

Import History Guard Engine Matcher TextNormalizer Sample.

#[local] Open Scope Z_scope.

Lemma timestamped_insert (h : store) (k : text) (e : entry) :
  is_Some (scrobbled_at e) → timestamped h → timestamped (<[k := e]> h).
Proof.
  intros He Hh k' e'. destruct (decide (k = k')) as [->|Hne].
  - rewrite lookup_insert_eq. by intros [= <-].
  - rewrite lookup_insert_ne by done. apply Hh.
Qed.

Lemma timestamped_singleton (k : text) (e : entry) :
  is_Some (scrobbled_at e) → timestamped ({[k := e]} : store).
Proof.
  intros He. rewrite <- insert_empty.
  by apply timestamped_insert, timestamped_empty.
Qed.

(** C1 fails as stated: with nothing in the store, two plays of one song
    of 3:30 in one batch get timestamps 120 seconds apart, closer than
    210 + 30, and both are planned. *)
Lemma repeated_play_planned_twice :
  find_tracks_to_scrobble now [looped; looped] ∅
  = Ok [(looped, now - 120); (looped, now)]
  ∧ Z.abs (now - (now - 120))
    < Duration.get_track_duration_seconds looped + 30.
Proof. split; by vm_compute. Qed.

Lemma plan_consults_only_the_given_store_witness :
  find_tracks_to_scrobble now [looped; looped] played_before
  = Ok (filter (λ p, admitted played_before p) (assigned now [looped; looped]))
  ∧ find_tracks_to_scrobble now [looped; looped] ∅
    = Ok (assigned now [looped; looped]).
Proof.
  apply (plan_consults_only_the_given_store now [looped; looped] played_before).
  apply timestamped_singleton. by eexists.
Defined.

(** C2 fails as stated, for either flag: the first application strips the
    last suffix and uncovers one that an earlier pattern of the chain would
    have taken; the second application strips that one. *)
Lemma clean_twice_differs :
  clean_youtube_metadata (L "Universal Music Official") true
  = L "Universal Music"
  ∧ clean_youtube_metadata (L "Universal Music") true = L "Universal"
  ∧ clean_youtube_metadata (L "Song (Official Video) (HD)") false
    = L "Song (Official Video)"
  ∧ clean_youtube_metadata (L "Song (Official Video)") false = L "Song"
  ∧ clean_youtube_metadata
      (clean_youtube_metadata (L "Universal Music Official") true) true
    ≠ clean_youtube_metadata (L "Universal Music Official") true
  ∧ clean_youtube_metadata
      (clean_youtube_metadata (L "Song (Official Video) (HD)") false) false
    ≠ clean_youtube_metadata (L "Song (Official Video) (HD)") false.
Proof. split_and!; by vm_compute. Qed.

(** C3. Three collaboration markers in a row ("&", "X", "feat.") are
    rewritten to three "ft", of which the single pass of the clean-up merges
    only the first two with each other: the result keeps two adjacent "ft"
    tokens, which the property excludes. *)
Theorem three_markers_leave_doubled_ft :
  normalize_featuring_artists (L "Tom & X feat. Jerry") = L "Tom ft ft Jerry"
  ∧ doubled_ft (tokens (normalize_featuring_artists (L "Tom & X feat. Jerry")))
    = true
  ∧ normalize_featuring_artists (L "ft ft ft") = L "ft ft"
  ∧ doubled_ft (tokens (normalize_featuring_artists (L "ft ft ft"))) = true.
Proof. split_and!; by vm_compute. Qed.

Lemma can_scrobble_track_gap_rule_witness :
  ∃ accept reason,
    can_scrobble_track long_song 1300 long_at_1000 = Ok (accept, reason)
    ∧ ([1000] ≠ [] →
       (accept = false
        ↔ ∃ p, p ∈ [1000]
               ∧ Z.abs (1300 - p)
                 < Duration.get_track_duration_seconds long_song + 30))
    ∧ ([1000] = [] → accept = true)
    ∧ (∀ p, [1000] = [p] →
            Z.abs (1300 - p)
            = Duration.get_track_duration_seconds long_song + 30 →
            accept = true)
    ∧ (∀ p, p ∈ [1000] →
            Z.abs (1300 - p)
            = Duration.get_track_duration_seconds long_song + 29 →
            accept = false).
Proof.
  apply (can_scrobble_track_gap_rule long_song 1300 long_at_1000 [1000]).
  by vm_compute.
Defined.

Lemma prune_keeps_exactly_recent_witness :
  cleanup_old_history now at_the_cutoff !! L "edge_1"
  = Some (entry_at (now - 14 * 86400))
  ∧ cleanup_old_history now at_the_cutoff !! L "old_1" = None
  ∧ cleanup_old (λ _, false) now at_the_cutoff false = Raised.
Proof.
  destruct (prune_keeps_exactly_recent now at_the_cutoff)
    as (_ & Hkept & Hgone & _ & _ & Hraises).
  split_and!.
  - apply Hkept; by vm_compute.
  - apply (Hgone _ (entry_at (now - 14 * 86400 - 1))); by vm_compute.
  - apply (Hraises _ (L "old_1") (entry_at (now - 14 * 86400 - 1)));
      by vm_compute.
Defined.

(** C6 fails as stated: the fallback equals the cleaned metadata and the
    query is sent a second time all the same. *)
Lemma retry_with_equal_fallback :
  (find_best_track_match finds_nothing no_score choose_none
     (L "Drake") (L "God's Plan") [] (L "Drake") (L "God's Plan") ()).2
  = [(L "Drake", L "God's Plan"); (L "Drake", L "God's Plan")].
Proof. by vm_compute. Qed.

Lemma retry_with_supplied_fallback_witness :
  (find_best_track_match finds_nothing no_score choose_none
     (L "Drake") (L "God's Plan") [] (L "Drake VEVO")
     (L "God's Plan (Official Video)") ()).2
  = [(L "Drake", L "God's Plan");
     (L "Drake VEVO", L "God's Plan (Official Video)")].
Proof.
  apply (retry_with_supplied_fallback finds_nothing no_score choose_none).
  by vm_compute.
Defined.

(** C7 fails as stated: a raw seconds field that is present and zero is not
    returned; the default is. *)
Lemma zero_raw_seconds_gives_default :
  PlayRecord.duration zero_seconds = None
  ∧ PlayRecord.duration_seconds zero_seconds = Some (PInt 0)
  ∧ Duration.get_track_duration_seconds zero_seconds = 210
  ∧ Duration.get_track_duration_seconds zero_seconds ≠ 0.
Proof. split_and!; by vm_compute. Qed.

Lemma get_track_duration_seconds_cases_witness :
  Duration.get_track_duration_seconds long_song = 465.
Proof.
  destruct (get_track_duration_seconds_cases long_song) as (Hparsed & _).
  apply (Hparsed (L "7:45")); by vm_compute.
Defined.

Lemma no_match_instead_of_raising_witness :
  (find_best_track_match page_fails no_score choose_none
     (L "Drake") (L "God's Plan") [] (L "Drake VEVO")
     (L "God's Plan (Official Video)") ()).1.1
  = Ok None.
Proof.
  destruct (no_match_instead_of_raising page_fails no_score choose_none)
    as (_ & _ & _ & Hfails & _).
  apply Hfails. intros a t w. right. exists (), w. split; [done|by left].
Defined.

Lemma proposed_timestamps_spaced_witness :
  (∃ plan, find_tracks_to_scrobble now [looped; long_song] played_before
           = Ok plan
           ∧ sublist plan (assigned now [looped; long_song]))
  ∧ assigned now [looped; long_song] !! 1%nat = Some (looped, now).
Proof.
  destruct (proposed_timestamps_spaced now [looped; long_song])
    as (Hat & _ & _ & _ & Hplan & _).
  split.
  - apply Hplan. apply timestamped_singleton. by eexists.
  - apply (Hat 1%nat looped). reflexivity.
Defined.

Lemma extract_track_id_of_scrobble_key_witness :
  extract_track_id (scrobble_key (L "a_b_c") 1700000000) = L "a_b_c".
Proof.
  apply (extract_track_id_of_scrobble_key (L "a_b_c") 1700000000).
  by vm_compute.
Defined.

End Samples.

(** * Further properties of the code *)

(** ** Pruning *)

Section PruneFacts.

Import History Prune.

#[local] Open Scope Z_scope.

Implicit Types h : store.

Lemma cleanup_old_history_subseteq now h : cleanup_old_history now h ⊆ h.
Proof.
  apply map_subseteq_spec. intros k e Hk.
  by apply cleanup_old_history_lookup in Hk as [? _].
Qed.

Lemma cleanup_old_history_unchanged now h :
  cleanup_old_history now h = h
  ↔ ∀ k e, h !! k = Some e → recent (now - TWO_WEEKS_SECONDS) e = true.
Proof.
  split.
  - intros Heq k e Hk. rewrite <- Heq in Hk.
    by apply cleanup_old_history_lookup in Hk as [_ ?].
  - intros Hall. apply map_eq. intros k. apply option_eq. intros e.
    rewrite cleanup_old_history_lookup. split; [by intros [? _]|].
    intros Hk. split; [done|by apply (Hall k)].
Qed.

Lemma recent_mono (c1 c2 : Z) (e : entry) :
  c1 ≤ c2 → recent c2 e = true → recent c1 e = true.
Proof. unfold recent. rewrite !Z.leb_le. lia. Qed.

(** X1. A prune pass only removes entries, and pruning at a later time
    absorbs an earlier prune: in particular pruning twice is pruning once. *)
Theorem prune_only_removes_and_composes now now' h :
  cleanup_old_history now h ⊆ h
  ∧ (size (cleanup_old_history now h) ≤ size h)%nat
  ∧ (now ≤ now' →
     cleanup_old_history now' (cleanup_old_history now h)
     = cleanup_old_history now' h)
  ∧ cleanup_old_history now (cleanup_old_history now h)
    = cleanup_old_history now h.
Proof.
  assert (∀ n n', n ≤ n' →
            cleanup_old_history n' (cleanup_old_history n h)
            = cleanup_old_history n' h) as Hcomp.
  { intros n n' Hle. apply map_eq. intros k. apply option_eq. intros e.
    rewrite !cleanup_old_history_lookup. split.
    - by intros [[? _] ?].
    - intros [? Hr]. split_and!; try done.
      apply (recent_mono _ (n' - TWO_WEEKS_SECONDS)); [lia|done]. }
  split_and!.
  - apply cleanup_old_history_subseteq.
  - apply map_subseteq_size, cleanup_old_history_subseteq.
  - apply Hcomp.
  - by apply Hcomp.
Qed.

Lemma auto_cleanup_loop now h :
  let r :=
    map_fold
      (λ scrobble_key track_data '(cleaned_history, removed_count),
         if recent (now - 14 * 24 * 60 * 60) track_data
         then (<[scrobble_key := track_data]> cleaned_history, removed_count)
         else (cleaned_history, S removed_count))
      (∅, 0%nat) h in
  r.1 = cleanup_old_history now h ∧ (r.2 = 0%nat → r.1 = h).
Proof.
  unfold cleanup_old_history.
  induction h as [|i x m Hi Hfirst IH] using map_first_key_ind.
  - by rewrite !map_fold_empty.
  - rewrite !(map_fold_insert_first_key _ _ m i x) by done.
    cbv zeta in IH. destruct IH as [IH1 IH2].
    destruct (map_fold _ (∅, 0%nat) m) as [cleaned removed]. simpl in *.
    change (14 * 24 * 60 * 60) with TWO_WEEKS_SECONDS.
    destruct (recent _ x); simpl.
    + split; [by rewrite IH1|]. intros Hr. by rewrite IH2.
    + split; [done|]. intros [=].
Qed.

(** X2. The prune step at the start of [main] and the [auto-cleanup]
    command both leave [cleanup_old_history] of the store behind: each saves
    the pruned store when it removed something, and saves nothing when every
    entry is recent, in which case the store is its own pruning already.
    The length test of [main] misses no removal. *)
Theorem prune_steps_save_the_pruned_store now h :
  (prune_on_start now h).1 = cleanup_old_history now h
  ∧ file_after (prune_on_start now h).2 h = cleanup_old_history now h
  ∧ ((prune_on_start now h).2 = None ↔ cleanup_old_history now h = h)
  ∧ file_after (auto_cleanup_command now h) h = cleanup_old_history now h.
Proof.
  unfold prune_on_start, auto_cleanup_command, file_after.
  cbn [fst snd].
  assert (size (cleanup_old_history now h) = size h
          → cleanup_old_history now h = h) as Hsize.
  { intros Hs. apply map_subseteq_size_eq;
      [apply cleanup_old_history_subseteq|lia]. }
  split_and!.
  - done.
  - case_bool_decide as Hs; [done|]. simpl. symmetry. by apply Hsize.
  - case_bool_decide as Hs.
    + split; [done|]. intros Heq. by rewrite Heq in Hs.
    + split; [|done]. intros _. by apply Hsize.
  - pose proof (auto_cleanup_loop now h) as Hloop. cbv zeta in Hloop.
    destruct (map_fold _ (∅, 0%nat) h) as [cleaned removed].
    simpl in Hloop. destruct Hloop as [H1 H2].
    case_bool_decide as Hr; simpl; [done|].
    rewrite <- H1. symmetry. apply H2. lia.
Qed.

End PruneFacts.

(** ** Recording a play and looking it up *)

Section RecordFacts.

Import History Guard.

#[local] Open Scope Z_scope.

Lemma startswith_app (p s : text) : Py.startswith p (p ++ s) = true.
Proof.
  induction p as [|c p IH]; simpl; [by destruct s|].
  by rewrite Ascii.eqb_refl, IH.
Qed.

Lemma startswith_inv (p s : text) :
  Py.startswith p s = true → ∃ r, s = p ++ r.
Proof.
  revert s. induction p as [|c p IH]; intros s; simpl.
  - intros _. by exists s.
  - destruct s as [|d s]; [done|].
    intros [Hc Hp]%andb_true_iff. apply Ascii.eqb_eq in Hc as ->.
    destruct (IH s Hp) as [r ->]. by exists r.
Qed.

Lemma startswith_scrobble_key (track_id : text) (ts : Z) :
  Py.startswith (track_id ++ L "_") (scrobble_key track_id ts) = true.
Proof.
  unfold scrobble_key. rewrite (app_assoc track_id). apply startswith_app.
Qed.

Lemma add_to_scrobble_history_lookup (now : Z) (track : PlayRecord.t)
    (ts : Z) (h : store) (k : text) (e : entry) :
  add_to_scrobble_history now track ts h !! k = Some e
  ↔ recent (now - TWO_WEEKS_SECONDS) e = true
    ∧ (if decide (k = scrobble_key (PlayRecord.videoId track) ts)
       then e = {| artist := PlayRecord.artist track;
                   title := PlayRecord.title track;
                   album := default [] (PlayRecord.album track);
                   scrobbled_at := Some ts;
                   duration_seconds :=
                     Duration.get_track_duration_seconds track;
                   youtube_url := L "https://music.youtube.com/watch?v="
                                    ++ PlayRecord.videoId track |}
       else h !! k = Some e).
Proof.
  unfold add_to_scrobble_history. rewrite cleanup_old_history_lookup.
  case_decide as Hk.
  - subst k. rewrite lookup_insert_eq. split.
    + by intros [[= <-] ?].
    + by intros [? ->].
  - rewrite lookup_insert_ne by done. split; by intros [? ?].
Qed.

Lemma add_to_scrobble_history_timestamped (now : Z) (track : PlayRecord.t)
    (ts : Z) (h : store) :
  timestamped h → timestamped (add_to_scrobble_history now track ts h).
Proof.
  intros Hh k e Hk. apply add_to_scrobble_history_lookup in Hk as [_ Hk].
  case_decide; [by subst e; eexists|by apply (Hh k)].
Qed.

Lemma recorded_play_stored (now : Z) (track : PlayRecord.t) (ts : Z)
    (h : store) :
  now - 14 * 86400 ≤ ts →
  ∃ e, add_to_scrobble_history now track ts h
         !! scrobble_key (PlayRecord.videoId track) ts = Some e
       ∧ scrobbled_at e = Some ts
       ∧ duration_seconds e = Duration.get_track_duration_seconds track
       ∧ artist e = PlayRecord.artist track
       ∧ title e = PlayRecord.title track.
Proof.
  intros Hts.
  exists {| artist := PlayRecord.artist track;
            title := PlayRecord.title track;
            album := default [] (PlayRecord.album track);
            scrobbled_at := Some ts;
            duration_seconds := Duration.get_track_duration_seconds track;
            youtube_url := L "https://music.youtube.com/watch?v="
                             ++ PlayRecord.videoId track |}.
  split; [|done].
  apply add_to_scrobble_history_lookup. rewrite decide_True by done.
  split; [|done]. unfold recent, TWO_WEEKS_SECONDS. simpl.
  apply Z.leb_le. lia.
Qed.

Lemma recorded_play_found_aux (now : Z) (track : PlayRecord.t) (ts : Z)
    (h : store) :
  timestamped h →
  now - 14 * 86400 ≤ ts →
  ∃ prev,
    get_track_scrobble_timestamps (PlayRecord.videoId track)
      (add_to_scrobble_history now track ts h) = Ok prev
    ∧ ts ∈ prev.
Proof.
  intros Hh Hts.
  destruct (recorded_play_stored now track ts h Hts) as (e & He & Hat & _).
  destruct (get_track_scrobble_timestamps_total (PlayRecord.videoId track)
              (add_to_scrobble_history now track ts h)) as [prev Hprev].
  { by apply add_to_scrobble_history_timestamped. }
  exists prev. split; [done|].
  apply (get_track_scrobble_timestamps_elem _ _ _ Hprev).
  exists (scrobble_key (PlayRecord.videoId track) ts), e.
  split_and!; [done|apply startswith_scrobble_key|done].
Qed.

(** X3. A play recorded with a timestamp inside the retention window is
    stored under its key with that timestamp and the duration of the track,
    and the look-up of the prior timestamps of the track then returns and
    holds the timestamp. *)
Theorem recorded_play_is_found (now : Z) (track : PlayRecord.t) (ts : Z)
    (h : store) :
  timestamped h →
  now - 14 * 86400 ≤ ts →
  (∃ e, add_to_scrobble_history now track ts h
          !! scrobble_key (PlayRecord.videoId track) ts = Some e
        ∧ scrobbled_at e = Some ts
        ∧ duration_seconds e = Duration.get_track_duration_seconds track
        ∧ artist e = PlayRecord.artist track
        ∧ title e = PlayRecord.title track)
  ∧ ∃ prev,
      get_track_scrobble_timestamps (PlayRecord.videoId track)
        (add_to_scrobble_history now track ts h) = Ok prev
      ∧ ts ∈ prev.
Proof.
  intros Hh Hts. split.
  - by apply recorded_play_stored.
  - by apply recorded_play_found_aux.
Qed.

(** X4. A play recorded with a timestamp older than the retention window
    leaves no entry under its key, whatever was there before; the other
    keys hold what a prune pass keeps. *)
Theorem stale_play_leaves_no_entry (now : Z) (track : PlayRecord.t) (ts : Z)
    (h : store) :
  ts < now - 14 * 86400 →
  add_to_scrobble_history now track ts h
    !! scrobble_key (PlayRecord.videoId track) ts = None
  ∧ ∀ k, k ≠ scrobble_key (PlayRecord.videoId track) ts →
         add_to_scrobble_history now track ts h !! k
         = cleanup_old_history now h !! k.
Proof.
  intros Hts. split.
  - apply eq_None_not_Some. intros [e He].
    apply add_to_scrobble_history_lookup in He as [Hr He].
    rewrite decide_True in He by done. subst e.
    unfold recent, TWO_WEEKS_SECONDS in Hr. simpl in Hr.
    apply Z.leb_le in Hr. lia.
  - intros k Hk. apply option_eq. intros e.
    rewrite add_to_scrobble_history_lookup, cleanup_old_history_lookup.
    rewrite decide_False by done. split; by intros [? ?].
Qed.

(** X5. Once a play is recorded, a proposal for the same track closer than
    its duration plus 30 seconds to the recorded timestamp is rejected. *)
Theorem recorded_play_blocks_close_proposal (now : Z) (track : PlayRecord.t)
    (ts proposed : Z) (h : store) :
  timestamped h →
  now - 14 * 86400 ≤ ts →
  Z.abs (proposed - ts) < Duration.get_track_duration_seconds track + 30 →
  ∃ reason,
    can_scrobble_track track proposed
      (add_to_scrobble_history now track ts h)
    = Ok (false, reason).
Proof.
  intros Hh Hts Hgap.
  destruct (recorded_play_found_aux now track ts h Hh Hts) as (prev & Hprev & Hin).
  destruct (can_scrobble_track_verdict track proposed _ prev Hprev)
    as (accept & reason & Hcan & Hiff).
  exists reason. rewrite Hcan. do 2 f_equal. apply Hiff. by exists ts.
Qed.

End RecordFacts.

(** ** Prior timestamps: the prefix test and missing fields *)

Section LookupFacts.

Import History Guard Engine.

#[local] Open Scope Z_scope.

(** X6. The look-up goes by key prefix: an entry of a track whose id is the
    looked-up id followed by an underscore and more counts as a prior
    scrobble of the looked-up track. *)
Theorem longer_id_counts_as_prior (track_id rest : text) (ts p : Z)
    (h : store) (e : entry) (prev : list Z) :
  h !! scrobble_key (track_id ++ L "_" ++ rest) ts = Some e →
  scrobbled_at e = Some p →
  get_track_scrobble_timestamps track_id h = Ok prev →
  p ∈ prev.
Proof.
  intros Hk He Hprev.
  apply (get_track_scrobble_timestamps_elem _ _ _ Hprev).
  exists (scrobble_key (track_id ++ L "_" ++ rest) ts), e.
  split_and!; [done| |done].
  unfold scrobble_key.
  replace ((track_id ++ L "_" ++ rest) ++ L "_" ++ Py.str_of_Z ts)
    with ((track_id ++ L "_") ++ rest ++ L "_" ++ Py.str_of_Z ts)
    by (by rewrite <- !app_assoc).
  apply startswith_app.
Qed.

(** X7. When all keys of the store come from track ids of one length, as
    video ids are, the prior timestamps of a track of that length are
    exactly the [scrobbled_at] of the entries stored under its own keys. *)
Theorem equal_length_ids_do_not_mix (n : nat) (track_id : text) (h : store)
    (prev : list Z) :
  keyed_by_ids_of_length n h →
  length track_id = n →
  get_track_scrobble_timestamps track_id h = Ok prev →
  ∀ p, p ∈ prev
       ↔ ∃ ts e, h !! scrobble_key track_id ts = Some e
                 ∧ scrobbled_at e = Some p.
Proof.
  intros Hkeys Hlen Hprev p.
  rewrite (proj2 (get_track_scrobble_timestamps_elem _ _ _ Hprev) p). split.
  - intros (k & e & Hk & Hstart & He).
    destruct (Hkeys k e Hk) as (a & ts & -> & Ha).
    apply startswith_inv in Hstart as [r Hr]. unfold scrobble_key in Hr.
    rewrite <- app_assoc in Hr.
    apply app_inj_1 in Hr as [-> _]; [|congruence].
    by exists ts, e.
  - intros (ts & e & Hk & He). exists (scrobble_key track_id ts), e.
    split_and!; [done|apply startswith_scrobble_key|done].
Qed.

Lemma collect_timestamps_raised (track_id : text)
    (items : list (text * entry)) : ∀ acc,
  collect_timestamps track_id items acc = Raised
  ↔ ∃ k e, (k, e) ∈ items
           ∧ Py.startswith (track_id ++ L "_") k = true
           ∧ scrobbled_at e = None.
Proof.
  induction items as [|[k e] items IH]; intros acc; simpl.
  - split; [done|]. intros (k & e & Hin & _). by apply elem_of_nil in Hin.
  - destruct (Py.startswith _ k) eqn:Hk.
    + destruct (scrobbled_at e) as [ts|] eqn:Hts.
      * rewrite IH. split.
        -- intros (k' & e' & Hin & ?). exists k', e'. split; [by right|done].
        -- intros (k' & e' & Hin & Hk' & He').
           apply elem_of_cons in Hin as [[= -> ->]|Hin]; [congruence|].
           by exists k', e'.
      * split; [|done]. intros _. exists k, e. split; [left|done].
    + rewrite IH. split.
      * intros (k' & e' & Hin & ?). exists k', e'. split; [by right|done].
      * intros (k' & e' & Hin & Hk' & He').
        apply elem_of_cons in Hin as [[= -> ->]|Hin]; [congruence|].
        by exists k', e'.
Qed.

Lemma get_track_scrobble_timestamps_raised (track_id : text) (h : store) :
  get_track_scrobble_timestamps track_id h = Raised
  ↔ ∃ k e, h !! k = Some e
           ∧ Py.startswith (track_id ++ L "_") k = true
           ∧ scrobbled_at e = None.
Proof.
  unfold get_track_scrobble_timestamps.
  destruct (collect_timestamps track_id (map_to_list h) []) as [l|] eqn:Hl.
  - split; [done|]. intros (k & e & Hk & Hrest).
    assert (collect_timestamps track_id (map_to_list h) [] = Raised) as Hr.
    { apply collect_timestamps_raised. exists k, e.
      by rewrite elem_of_map_to_list. }
    congruence.
  - split; [|done]. intros _.
    apply collect_timestamps_raised in Hl as (k & e & Hin & Hrest).
    exists k, e. by rewrite <- elem_of_map_to_list.
Qed.

Lemma can_scrobble_track_raised (track : PlayRecord.t) (ts : Z) (h : store) :
  can_scrobble_track track ts h = Raised
  ↔ get_track_scrobble_timestamps (PlayRecord.videoId track) h = Raised.
Proof.
  unfold can_scrobble_track.
  destruct (get_track_scrobble_timestamps _ h) as [prev|]; [|done].
  unfold mbind, exc_bind. by destruct prev.
Qed.

Lemma plan_loop_raised (now : Z) (len : nat) (h : store) :
  ∀ (items : list (nat * PlayRecord.t)) (acc : list (PlayRecord.t * Z)),
  plan_loop now len h items acc = Raised
  ↔ ∃ it, it ∈ items
          ∧ get_track_scrobble_timestamps (PlayRecord.videoId it.2) h
            = Raised.
Proof.
  induction items as [|[i track] items IH]; intros acc.
  - split; [done|]. intros (it & Hin & _). by apply elem_of_nil in Hin.
  - cbn [plan_loop].
    destruct (can_scrobble_track track (proposed_timestamp now len i) h)
      as [[b reason]|] eqn:Hcan; unfold mbind, exc_bind.
    + rewrite IH. split.
      * intros (it & Hin & ?). exists it. split; [by right|done].
      * intros (it & Hin & Hr).
        apply elem_of_cons in Hin as [->|Hin]; [|by exists it].
        simpl in Hr.
        apply (can_scrobble_track_raised _ (proposed_timestamp now len i))
          in Hr.
        congruence.
    + split; [|done]. intros _. exists (i, track). split; [left|].
      by apply can_scrobble_track_raised in Hcan.
Qed.

(** X8. Missing field: the look-up of prior timestamps raises exactly when
    some entry under the track's key prefix has no [scrobbled_at]; and one
    such entry under the prefix of one track of the batch makes planning
    raise, so that no plan is returned for any track of the batch. *)
Theorem planning_raises_on_missing_timestamp (now : Z)
    (batch : list PlayRecord.t) (h : store) :
  (∀ track_id : text,
     get_track_scrobble_timestamps track_id h = Raised
     ↔ ∃ k e, h !! k = Some e
              ∧ Py.startswith (track_id ++ L "_") k = true
              ∧ scrobbled_at e = None)
  ∧ (∀ track k e,
       track ∈ batch →
       h !! k = Some e →
       Py.startswith (PlayRecord.videoId track ++ L "_") k = true →
       scrobbled_at e = None →
       find_tracks_to_scrobble now batch h = Raised).
Proof.
  split; [intros track_id; apply get_track_scrobble_timestamps_raised|].
  intros track k e Hin Hk Hpre He.
  unfold find_tracks_to_scrobble. apply plan_loop_raised.
  apply elem_of_reverse, list_elem_of_lookup in Hin as [j Hj].
  exists (j, track). split.
  - by apply (elem_of_lookup_imap_2 (λ i x, (i, x))).
  - apply get_track_scrobble_timestamps_raised. by exists k, e.
Qed.

End LookupFacts.

(** ** The guard and the plan *)

Section PlanFacts.

Import History Guard Engine.

#[local] Open Scope Z_scope.

(** X9. A proposal accepted against a store is accepted against every part
    of it: removing entries, as pruning does, never turns an acceptance
    into a rejection or into a failure. *)
Theorem acceptance_survives_removal (track : PlayRecord.t) (ts : Z)
    (h h' : store) (reason : text) :
  h' ⊆ h →
  can_scrobble_track track ts h = Ok (true, reason) →
  ∃ reason', can_scrobble_track track ts h' = Ok (true, reason').
Proof.
  intros Hsub Hcan.
  destruct (get_track_scrobble_timestamps (PlayRecord.videoId track) h)
    as [prev|] eqn:Hprev.
  2: { apply (can_scrobble_track_raised track ts) in Hprev. congruence. }
  destruct (get_track_scrobble_timestamps (PlayRecord.videoId track) h')
    as [prev'|] eqn:Hprev'.
  2: { apply get_track_scrobble_timestamps_raised in Hprev'
         as (k & e & Hk & Hrest).
       assert (get_track_scrobble_timestamps (PlayRecord.videoId track) h
               = Raised) as Hr.
       { apply get_track_scrobble_timestamps_raised. exists k, e.
         split; [|done]. by apply (lookup_weaken h' h). }
       congruence. }
  destruct (can_scrobble_track_verdict track ts h prev Hprev)
    as (a & r & Hcan1 & Hiff).
  destruct (can_scrobble_track_verdict track ts h' prev' Hprev')
    as (a' & r' & Hcan' & Hiff').
  rewrite Hcan in Hcan1. injection Hcan1 as <- <-.
  exists r'. rewrite Hcan'. destruct a'; [done|].
  destruct Hiff' as [Hiff' _]. destruct (Hiff' eq_refl) as (p & Hp & Hclose).
  assert (true = false) as Habs; [|done].
  apply Hiff. exists p. split; [|done].
  apply (get_track_scrobble_timestamps_elem _ _ _ Hprev).
  apply (get_track_scrobble_timestamps_elem _ _ _ Hprev') in Hp
    as (k & e & Hk & Hrest).
  exists k, e. split; [|done]. by apply (lookup_weaken h' h).
Qed.

Lemma plan_loop_ok (now : Z) (len : nat) (h : store) :
  ∀ (items : list (nat * PlayRecord.t)) (acc plan : list (PlayRecord.t * Z)),
  plan_loop now len h items acc = Ok plan →
  plan = acc ++ filter (λ p, admitted h p)
                  ((λ it : nat * PlayRecord.t,
                      (it.2, proposed_timestamp now len it.1)) <$> items).
Proof.
  induction items as [|[i track] items IH]; intros acc plan.
  - simpl. intros [= <-]. by rewrite app_nil_r.
  - cbn [plan_loop fmap list_fmap].
    destruct (can_scrobble_track track (proposed_timestamp now len i) h)
      as [[b reason]|] eqn:Hcan; unfold mbind, exc_bind; [|done].
    intros Hplan. apply IH in Hplan as ->.
    rewrite filter_cons. cbn [fst snd].
    assert (admitted h (track, proposed_timestamp now len i) = b) as ->.
    { unfold admitted. cbn [fst snd]. by rewrite Hcan. }
    destruct b; simpl; [by rewrite <- app_assoc|done].
Qed.

Lemma find_tracks_to_scrobble_ok (now : Z) (batch : list PlayRecord.t)
    (h : store) (plan : list (PlayRecord.t * Z)) :
  find_tracks_to_scrobble now batch h = Ok plan →
  plan = filter (λ p, admitted h p) (assigned now batch).
Proof.
  unfold find_tracks_to_scrobble. intros Hplan.
  apply plan_loop_ok in Hplan as ->. by rewrite assigned_enumerate.
Qed.

Lemma sublist_StronglySorted {A} (R : relation A) (l1 l2 : list A) :
  sublist l1 l2 → StronglySorted R l2 → StronglySorted R l1.
Proof.
  induction 1 as [|x l1 l2 Hsub IH|x l1 l2 Hsub IH]; intros Hs.
  - constructor.
  - apply StronglySorted_inv in Hs as [Hs Hall].
    constructor; [by apply IH|].
    apply Forall_forall. intros y Hy. rewrite Forall_forall in Hall.
    apply Hall. by apply (elem_of_sublist l1 l2).
  - apply StronglySorted_inv in Hs as [Hs _]. by apply IH.
Qed.

Lemma assigned_sorted (now : Z) (batch : list PlayRecord.t) :
  StronglySorted (λ p q : PlayRecord.t * Z, p.2 < q.2) (assigned now batch).
Proof.
  unfold assigned. generalize (length batch) as len. intros len.
  generalize (reverse batch) as l. clear batch. intros l.
  assert (∀ k : nat,
            StronglySorted (λ p q : PlayRecord.t * Z, p.2 < q.2)
              (imap (λ i track,
                       (track, proposed_timestamp now len (k + i))) l))
    as Hgen.
  { induction l as [|x l IH]; intros k; [constructor|].
    rewrite imap_cons. constructor.
    - specialize (IH (S k)).
      erewrite imap_ext; [exact IH|].
      intros i y _. simpl. do 2 f_equal. lia.
    - apply Forall_forall. intros q Hq.
      apply elem_of_lookup_imap in Hq as (i & y & -> & _).
      unfold proposed_timestamp. simpl. lia. }
  exact (Hgen 0%nat).
Qed.

(** X10. A plan that is returned holds plays of the batch in processing
    order, at most one per item; every planned timestamp lies between
    [now - (N - 1) * 120] and [now], so no play is planned in the future;
    and the planned timestamps increase strictly. *)
Theorem plan_is_ordered_and_bounded (now : Z) (batch : list PlayRecord.t)
    (h : store) (plan : list (PlayRecord.t * Z)) :
  find_tracks_to_scrobble now batch h = Ok plan →
  sublist plan.*1 (reverse batch)
  ∧ (length plan ≤ length batch)%nat
  ∧ (∀ track ts, (track, ts) ∈ plan →
       track ∈ batch
       ∧ now - (Z.of_nat (length batch) - 1) * 120 ≤ ts ≤ now)
  ∧ StronglySorted Z.lt plan.*2.
Proof.
  intros Hplan. apply find_tracks_to_scrobble_ok in Hplan.
  assert (sublist plan (assigned now batch)) as Hsub.
  { rewrite Hplan. apply sublist_filter. }
  assert ((assigned now batch).*1 = reverse batch) as Hfst.
  { unfold assigned. rewrite fmap_imap.
    rewrite (imap_ext _ (λ _ x, x)) by done.
    clear. induction (reverse batch) as [|x l IH]; [done|].
    rewrite imap_cons. f_equal. exact IH. }
  split_and!.
  - rewrite <- Hfst. by apply fmap_sublist.
  - apply sublist_length in Hsub. unfold assigned in Hsub.
    by rewrite length_imap, length_reverse in Hsub.
  - intros track ts Hin. apply (elem_of_sublist _ _ _ Hin) in Hsub.
    unfold assigned in Hsub.
    apply elem_of_lookup_imap in Hsub as (i & y & [= -> ->] & Hi).
    split.
    + apply elem_of_reverse, list_elem_of_lookup. by exists i.
    + apply lookup_lt_Some in Hi. rewrite length_reverse in Hi.
      unfold proposed_timestamp. lia.
  - pose proof (sublist_StronglySorted _ _ _ Hsub (assigned_sorted now batch))
      as Hs.
    clear -Hs. induction Hs as [|p l Hs IH Hall]; [constructor|].
    simpl. constructor; [done|].
    apply Forall_fmap. by apply (Forall_impl _ _ _ Hall).
Qed.

End PlanFacts.

(** ** The reason the guard gives *)

Section ReasonFacts.

Import History Guard.

#[local] Open Scope Z_scope.

Lemma check_gaps_first (ts gap : Z) (count : nat) :
  ∀ (prev : list Z) (reason : text),
  check_gaps ts gap prev count = (false, reason) →
  ∃ l1 p l2,
    prev = l1 ++ p :: l2
    ∧ Forall (λ q, gap ≤ Z.abs (ts - q)) l1
    ∧ Z.abs (ts - p) < gap
    ∧ reason = L "Too close to previous scrobble ("
                 ++ Py.str_of_Z (Z.abs (ts - p) / 60)
                 ++ L "m gap, need " ++ Py.str_of_Z (gap / 60) ++ L "m)".
Proof.
  induction prev as [|q prev IH]; intros reason; cbn [check_gaps]; [done|].
  destruct (Z.ltb_spec (Z.abs (ts - q)) gap) as [Hlt|Hge].
  - intros [= <-]. by exists [], q, prev.
  - intros Hc. apply IH in Hc as (l1 & p & l2 & -> & Hall & Hp & Hr).
    exists (q :: l1), p, l2. split_and!; try done. by constructor.
Qed.

Lemma check_gaps_accepted (ts gap : Z) (count : nat) :
  ∀ (prev : list Z) (reason : text),
  check_gaps ts gap prev count = (true, reason) →
  reason = L "Sufficient gap from " ++ Py.str_of_Z (Z.of_nat count)
             ++ L " previous scrobbles".
Proof.
  induction prev as [|q prev IH]; intros reason; cbn [check_gaps].
  - by intros [= <-].
  - destruct (Z.abs (ts - q) <? gap); [done|]. apply IH.
Qed.

(** X11. The reason returned with the verdict: without prior scrobbles it
    says so; an acceptance cites the number of prior scrobbles checked; a
    rejection cites, in whole minutes rounded down, the gap to the oldest
    prior scrobble that is too close, and the required gap. *)
Theorem verdict_reason (track : PlayRecord.t) (ts : Z) (h : store)
    (prev : list Z) (accept : bool) (reason : text) :
  get_track_scrobble_timestamps (PlayRecord.videoId track) h = Ok prev →
  can_scrobble_track track ts h = Ok (accept, reason) →
  (prev = [] → reason = L "No previous scrobbles found")
  ∧ (prev ≠ [] → accept = true →
     reason = L "Sufficient gap from "
                ++ Py.str_of_Z (Z.of_nat (length prev))
                ++ L " previous scrobbles")
  ∧ (accept = false →
     ∃ p, p ∈ prev
          ∧ Z.abs (ts - p) < Duration.get_track_duration_seconds track + 30
          ∧ (∀ q, q ∈ prev →
               Z.abs (ts - q)
               < Duration.get_track_duration_seconds track + 30 →
               p ≤ q)
          ∧ reason
            = L "Too close to previous scrobble ("
                ++ Py.str_of_Z (Z.abs (ts - p) / 60)
                ++ L "m gap, need "
                ++ Py.str_of_Z
                     ((Duration.get_track_duration_seconds track + 30) / 60)
                ++ L "m)").
Proof.
  intros Hprev Hcan.
  pose proof (proj1 (get_track_scrobble_timestamps_elem _ _ _ Hprev))
    as Hsorted.
  apply (Sorted_StronglySorted _) in Hsorted.
  unfold can_scrobble_track in Hcan. rewrite Hprev in Hcan.
  unfold mbind, exc_bind in Hcan.
  destruct prev as [|p0 prev0]; [by injection Hcan as <- <-|].
  assert (check_gaps ts (Duration.get_track_duration_seconds track + 30)
            (p0 :: prev0) (length (p0 :: prev0)) = (accept, reason)) as Hc
    by congruence.
  clear Hcan. rename Hc into Hcan. split_and!; [done| |].
  - intros _ ->. by apply check_gaps_accepted in Hcan.
  - intros ->. apply check_gaps_first in Hcan
      as (l1 & p & l2 & Hsplit & Hall & Hp & Hr).
    exists p. rewrite Hsplit in Hsorted. rewrite Hsplit.
    split_and!; try done.
    + apply elem_of_app. right. left.
    + intros q Hq Hclose. apply elem_of_app in Hq as [Hq|Hq].
      * rewrite Forall_forall in Hall. specialize (Hall q Hq). lia.
      * apply elem_of_cons in Hq as [->|Hq]; [lia|].
        apply (StronglySorted_app_1_r Z.le l1 (p :: l2)) in Hsorted.
        apply StronglySorted_inv in Hsorted as [_ Hle].
        rewrite Forall_forall in Hle. by apply Hle.
Qed.

End ReasonFacts.

(** ** Shapes of the normalised texts *)

Section ShapeFacts.

Import Re TextNormalizer.

Lemma lstrip_split (s : text) :
  ∃ ws, s = ws ++ Py.lstrip s.
Proof.
  induction s as [|c s [ws IH]]; [by exists []|]. simpl.
  destruct (Py.is_space c); [|by exists []].
  exists (c :: ws). simpl. by rewrite <- IH.
Qed.

Lemma rstrip_split (s : text) : ∃ ws, s = Py.rstrip s ++ ws.
Proof.
  unfold Py.rstrip. destruct (lstrip_split (rev s)) as [ws Hws].
  exists (rev ws). rewrite <- rev_app_distr, <- Hws.
  by rewrite rev_involutive.
Qed.

Lemma lstrip_head (s : text) : space_next (Py.lstrip s) = false.
Proof.
  induction s as [|c s IH]; [done|]. simpl.
  destruct (Py.is_space c) eqn:Hc; [done|]. simpl. by rewrite Hc.
Qed.

Lemma strip_stripped (s : text) : stripped (Py.strip s) = true.
Proof.
  unfold stripped, Py.strip. apply andb_true_iff. split.
  - pose proof (lstrip_head s) as Hhead.
    destruct (rstrip_split (Py.lstrip s)) as [ws Hws].
    destruct (Py.rstrip (Py.lstrip s)) as [|c x]; [done|].
    rewrite Hws in Hhead. simpl in *. by rewrite Hhead.
  - unfold Py.rstrip. rewrite rev_involutive. by rewrite lstrip_head.
Qed.

(** X12. The cleaned and normalised texts never start or end with white
    space: this holds for the results of [clean_youtube_metadata],
    [normalize_featuring_artists], [normalize_remix_versions] and
    [normalize_text], and for all three fields of [clean_track_metadata]. *)
Theorem results_are_stripped (t : text) (is_artist : bool)
    (artist title album : text) :
  stripped (clean_youtube_metadata t is_artist) = true
  ∧ stripped (normalize_featuring_artists t) = true
  ∧ stripped (normalize_remix_versions t) = true
  ∧ stripped (normalize_text t is_artist) = true
  ∧ stripped (clean_track_metadata artist title album).1.1 = true
  ∧ stripped (clean_track_metadata artist title album).1.2 = true
  ∧ stripped (clean_track_metadata artist title album).2 = true.
Proof.
  assert (∀ t b, stripped (clean_youtube_metadata t b) = true) as Hclean.
  { intros [|c u] b; [done|]. apply strip_stripped. }
  assert (∀ t, stripped (normalize_featuring_artists t) = true) as Hfeat.
  { intros [|c u]; [done|]. apply strip_stripped. }
  assert (∀ t, stripped (normalize_remix_versions t) = true) as Hremix.
  { intros [|c u]; [done|]. apply strip_stripped. }
  unfold clean_track_metadata. cbn [fst snd]. split_and!.
  - apply Hclean.
  - apply Hfeat.
  - apply Hremix.
  - destruct t as [|c u]; [done|]. apply strip_stripped.
  - apply Hfeat.
  - apply Hremix.
  - apply Hclean.
Qed.

End ShapeFacts.

Section SpacingFacts.

Import Re TextNormalizer.

(** The compiled form of the white-space pattern. *)
Lemma compile_spaces : compile "\s+" = Some [Plus (Set_ Py.is_space)].
Proof. reflexivity. Qed.

Lemma greedy_run (prev : option ascii) (s : text) :
  greedy false (Set_ Py.is_space) (match_here false []) prev s
  = Some (run s).
Proof.
  revert prev. induction s as [|c s IH]; intros prev; simpl; [done|].
  destruct (Py.is_space c); [|done]. by rewrite IH.
Qed.

Lemma match_spaces (prev : option ascii) (s : text) :
  match_here false [Plus (Set_ Py.is_space)] prev s
  = match run s with O => None | n => Some n end.
Proof.
  destruct s as [|c s]; simpl; [done|].
  destruct (Py.is_space c); [|done]. by rewrite greedy_run.
Qed.

(** Replacing every white-space run by one blank: while [skip] characters
    of a run are still dropped the result is single-spaced, and it starts
    with no white space once the whole run is dropped. *)
Lemma squeeze_walk : ∀ (s : text) (skip : nat) (prev : option ascii),
  skip ≤ run s →
  single_spaced
    (sub_walk false [Plus (Set_ Py.is_space)] (L " ") skip prev s) = true
  ∧ (skip = run s →
     space_next
       (sub_walk false [Plus (Set_ Py.is_space)] (L " ") skip prev s)
     = false).
Proof.
  induction s as [|c s IH]; intros skip prev Hskip.
  - simpl in Hskip. assert (skip = 0) as -> by lia. by cbn.
  - cbn [sub_walk]. destruct skip as [|k].
    + rewrite match_spaces. cbn [run] in *.
      destruct (Py.is_space c) eqn:Hc.
      * destruct (IH (run s) (Some c)) as [Hss Hnext]; [done|].
        specialize (Hnext eq_refl).
        change (L " " ++ ?x) with (" "%char :: x).
        cbn [single_spaced space_next]. rewrite Hss, Hnext.
        split; [done|lia].
      * destruct (IH 0 (Some c)) as [Hss _]; [lia|].
        cbn [single_spaced space_next]. rewrite Hc, Hss. by split.
    + cbn [run] in Hskip. destruct (Py.is_space c) eqn:Hc; [|lia].
      destruct (IH k (Some c)) as [Hss Hnext]; [lia|].
      split; [done|]. intros Hk. apply Hnext. cbn [run] in Hk.
      rewrite Hc in Hk. lia.
Qed.

Lemma sub_spaces_single_spaced (s : text) :
  single_spaced (sub "\s+" (L " ") s false) = true.
Proof.
  unfold sub. rewrite compile_spaces.
  apply (squeeze_walk s 0 None). lia.
Qed.

Lemma single_spaced_app (a b : text) :
  single_spaced (a ++ b) = true →
  single_spaced a = true ∧ single_spaced b = true.
Proof.
  induction a as [|c a IH]; simpl; [done|].
  intros [Hc Hrest]%andb_true_iff. destruct (IH Hrest) as [Ha Hb].
  split; [|done]. rewrite Ha, andb_true_r.
  destruct (negb (Py.is_space c)); [done|]. simpl in *.
  apply andb_true_iff in Hc as [-> Hnext]. simpl.
  destruct a; [done|]. done.
Qed.

Lemma strip_single_spaced (s : text) :
  single_spaced s = true → single_spaced (Py.strip s) = true.
Proof.
  intros Hs. unfold Py.strip.
  destruct (lstrip_split s) as [ws Hws].
  destruct (rstrip_split (Py.lstrip s)) as [ws' Hws'].
  rewrite Hws in Hs. apply single_spaced_app in Hs as [_ Hs].
  rewrite Hws' in Hs. by apply single_spaced_app in Hs as [Hs _].
Qed.

(** X13. In the results of [normalize_featuring_artists] and
    [normalize_text] every white-space character is a blank and no two
    blanks stand together: tabs, line breaks and runs of blanks of the
    input are gone. *)
Theorem results_are_single_spaced (t : text) (is_artist : bool) :
  single_spaced (normalize_featuring_artists t) = true
  ∧ single_spaced (normalize_text t is_artist) = true.
Proof.
  split.
  - destruct t as [|c u]; [done|]. unfold normalize_featuring_artists.
    apply strip_single_spaced, sub_spaces_single_spaced.
  - destruct t as [|c u]; [done|]. unfold normalize_text.
    apply strip_single_spaced, sub_spaces_single_spaced.
Qed.

End SpacingFacts.

Section AlphabetFacts.

Import Re TextNormalizer.

Lemma sub_walk_Forall (P : ascii → Prop) (ic : bool) (r : regex)
    (repl : text) :
  Forall P repl →
  ∀ (s : text) (skip : nat) (prev : option ascii),
    Forall P s → Forall P (sub_walk ic r repl skip prev s).
Proof.
  intros Hrepl. induction s as [|c s IH]; intros skip prev Hs; simpl.
  - destruct skip; [|done]. by destruct (match_here ic r prev []).
  - apply Forall_cons in Hs as [Hc Hs]. destruct skip as [|k]; [|by apply IH].
    destruct (match_here ic r prev (c :: s)) as [[|n]|].
    + apply Forall_app. split; [done|]. constructor; [done|by apply IH].
    + apply Forall_app. split; [done|by apply IH].
    + constructor; [done|by apply IH].
Qed.

(** A substitution brings in no character that is neither in the text nor
    in the replacement. *)
Lemma sub_Forall (P : ascii → Prop) (pattern : string) (repl s : text)
    (ic : bool) :
  Forall P repl → Forall P s → Forall P (sub pattern repl s ic).
Proof.
  intros Hrepl Hs. unfold sub. destruct (compile pattern); [|done].
  by apply sub_walk_Forall.
Qed.

Lemma strip_Forall (P : ascii → Prop) (s : text) :
  Forall P s → Forall P (Py.strip s).
Proof.
  intros Hs. unfold Py.strip.
  destruct (lstrip_split s) as [ws Hws].
  destruct (rstrip_split (Py.lstrip s)) as [ws' Hws'].
  rewrite Hws in Hs. apply Forall_app in Hs as [_ Hs].
  rewrite Hws' in Hs. by apply Forall_app in Hs as [Hs _].
Qed.

Lemma lower_char_idem (c : ascii) :
  Py.lower_char (Py.lower_char c) = Py.lower_char c.
Proof. by destruct c as [[] [] [] [] [] [] [] []]. Qed.

(** The class of characters that the punctuation pattern replaces. *)
Lemma compile_punctuation :
  ∃ q, compile "[^\w\s\'-]" = Some [One (Set_ q)]
       ∧ ∀ c, q c = negb (Py.is_word c || Py.is_space c
                          || Ascii.eqb "'" c || Ascii.eqb "-" c).
Proof.
  eexists. split; [reflexivity|]. intros c. cbv beta.
  change ("w" =? "s")%char with false. change ("w" =? "w")%char with true.
  change ("s" =? "s")%char with true. change ("'" =? "s")%char with false.
  change ("'" =? "w")%char with false. cbv iota.
  by rewrite orb_false_l.
Qed.

Lemma class_walk (ic : bool) (q : ascii → bool) (repl : text) :
  Forall (λ c, q c = false) repl →
  ∀ (s : text) (skip : nat) (prev : option ascii),
    Forall (λ c, q c = false)
      (sub_walk ic [One (Set_ q)] repl skip prev s).
Proof.
  intros Hrepl. induction s as [|c s IH]; intros skip prev; simpl.
  - by destruct skip.
  - destruct skip as [|k]; [|apply IH].
    destruct (q c) eqn:Hc; simpl.
    + apply Forall_app. split; [done|apply IH].
    + constructor; [done|apply IH].
Qed.

Lemma single_spaced_blank (s : text) :
  single_spaced s = true →
  Forall (λ c, Py.is_space c = true → c = " "%char) s.
Proof.
  induction s as [|c s IH]; simpl; [constructor|].
  intros [Hc Hs]%andb_true_iff. constructor; [|by apply IH].
  intros Hsp. rewrite Hsp in Hc. simpl in Hc.
  apply andb_true_iff in Hc as [Hc _]. by apply Ascii.eqb_eq in Hc.
Qed.

(** X14. A comparison text is made of word characters, single blanks,
    apostrophes and hyphens only, and has no character that [lower] would
    change: all other punctuation and all upper-case letters are gone. *)
Theorem comparison_text_alphabet (t : text) (is_artist : bool) :
  forallb comparison_char (normalize_text t is_artist) = true.
Proof.
  destruct t as [|c0 u]; [done|]. unfold normalize_text.
  set (t3 := if negb is_artist then _ else _).
  set (t5 := foldl _ (Py.strip (Py.lower t3)) symbol_replacements).
  destruct compile_punctuation as (q & Hq & Hqc).
  assert (Forall (λ c, Py.lower_char c = c) t5) as Hlow5.
  { subst t5. unfold symbol_replacements. cbn [foldl].
    repeat (apply sub_Forall; [by repeat constructor|]).
    apply strip_Forall. unfold Py.lower. apply Forall_fmap.
    apply Forall_forall. intros c _. apply lower_char_idem. }
  set (t6 := sub "[^\w\s\'-]" (L " ") t5 false).
  assert (Forall (λ c, q c = false) t6) as Hq6.
  { subst t6. unfold sub. rewrite Hq. apply class_walk.
    repeat constructor. by rewrite Hqc. }
  assert (Forall (λ c, Py.lower_char c = c) t6) as Hlow6.
  { subst t6. apply sub_Forall; [by repeat constructor|done]. }
  set (t7 := sub "\s+" (L " ") t6 false).
  assert (single_spaced (Py.strip t7) = true) as Hss.
  { apply strip_single_spaced, sub_spaces_single_spaced. }
  assert (Forall (λ c, q c = false) (Py.strip t7)) as Hq7.
  { apply strip_Forall, sub_Forall; [|done].
    repeat constructor. by rewrite Hqc. }
  assert (Forall (λ c, Py.lower_char c = c) (Py.strip t7)) as Hlow7.
  { apply strip_Forall, sub_Forall; [by repeat constructor|done]. }
  apply single_spaced_blank in Hss.
  apply forallb_forall. intros c Hin%list_elem_of_In.
  rewrite Forall_forall in Hss, Hq7, Hlow7.
  specialize (Hss c Hin). specialize (Hq7 c Hin). specialize (Hlow7 c Hin).
  unfold comparison_char. rewrite Hlow7, Ascii.eqb_refl, andb_true_r.
  rewrite Hqc in Hq7. apply negb_false_iff in Hq7.
  rewrite (Ascii.eqb_sym c "'"), (Ascii.eqb_sym c "-").
  destruct (Py.is_word c); [done|]. destruct (Py.is_space c).
  - by rewrite (Hss eq_refl).
  - cbn [orb] in *. rewrite <- orb_assoc, Hq7. by rewrite orb_true_r.
Qed.

End AlphabetFacts.

(** ** Search results and the choice among them *)

Section SearchFacts.

Import Matcher Scoring.

#[local] Open Scope Z_scope.

Context {W R F : Type}.
Variable net : @network W R.
Variable fuzz_ratio : text → text → Z.

Lemma insert_by_score_sorted (x : lfm_track * Z) (l : list (lfm_track * Z)) :
  StronglySorted (λ a b : lfm_track * Z, b.2 ≤ a.2) l →
  StronglySorted (λ a b : lfm_track * Z, b.2 ≤ a.2) (insert_by_score x l).
Proof.
  induction l as [|y l IH]; intros Hs; simpl.
  - repeat constructor.
  - destruct (Z.leb_spec y.2 x.2) as [Hle|Hgt].
    + constructor; [done|]. apply StronglySorted_inv in Hs as [_ Hall].
      constructor; [done|]. apply (Forall_impl _ _ _ Hall).
      intros z Hz. simpl in *. lia.
    + apply StronglySorted_inv in Hs as [Hs Hall]. constructor; [by apply IH|].
      clear IH Hs. induction l as [|z l IH]; simpl.
      * repeat constructor. lia.
      * apply Forall_cons in Hall as [Hz Hall].
        destruct (z.2 <=? x.2); repeat constructor; try done; try lia.
        by apply IH.
Qed.

Lemma insert_by_score_perm (x : lfm_track * Z) (l : list (lfm_track * Z)) :
  insert_by_score x l ≡ₚ x :: l.
Proof.
  induction l as [|y l IH]; simpl; [done|].
  destruct (y.2 <=? x.2); [done|]. rewrite IH. apply Permutation_swap.
Qed.

Lemma sort_by_score_sorted (l : list (lfm_track * Z)) :
  StronglySorted (λ a b : lfm_track * Z, b.2 ≤ a.2) (sort_by_score l).
Proof.
  induction l as [|x l IH]; simpl; [constructor|].
  by apply insert_by_score_sorted.
Qed.

Lemma sort_by_score_perm (l : list (lfm_track * Z)) : sort_by_score l ≡ₚ l.
Proof.
  induction l as [|x l IH]; simpl; [done|].
  by rewrite insert_by_score_perm, IH.
Qed.

Lemma length_omap_le {A B} (f : A → option B) (l : list A) :
  (length (omap f l) ≤ length l)%nat.
Proof.
  induction l as [|x l IH]; [done|]. cbn [omap list_omap length].
  destruct (f x); cbn [length]; [by apply le_n_S|by apply Nat.le_le_succ_r].
Qed.

(** The candidates of a search, when there are any. *)
Lemma search_candidates (artist title : text) (limit : nat) (w : W)
    (log : list query) (c : lfm_track * Z) :
  c ∈ (search_lastfm_tracks net fuzz_ratio artist title limit w log).1.1 →
  ∃ results w1 page,
    search_for_track net artist title w = (Ok results, w1)
    ∧ (get_next_page net results w1).1 = Ok page
    ∧ (search_lastfm_tracks net fuzz_ratio artist title limit w log).1.1
      = sort_by_score
          (omap (score_track fuzz_ratio (comparison_string artist title))
                (take limit page)).
Proof.
  unfold search_lastfm_tracks.
  destruct (search_for_track net artist title w) as [[results|] w1];
    [|cbn; by intros ?%elem_of_nil].
  destruct (get_next_page net results w1) as [[page|] w2] eqn:Hpage;
    [|cbn; by intros ?%elem_of_nil].
  intros _. exists results, w1, page. by rewrite Hpage.
Qed.

(** Where a candidate comes from and what its score is. *)
Lemma search_member (artist title : text) (limit : nat) (w : W)
    (log : list query) (track : lfm_track) (score : Z) :
  (track, score)
  ∈ (search_lastfm_tracks net fuzz_ratio artist title limit w log).1.1 →
  ∃ results w1 page a n,
    search_for_track net artist title w = (Ok results, w1)
    ∧ (get_next_page net results w1).1 = Ok page
    ∧ track ∈ take limit page
    ∧ get_artist_name track = Ok a
    ∧ get_name track = Ok n
    ∧ score = fuzz_ratio (comparison_string artist title)
                (comparison_string a n).
Proof.
  intros Hin.
  destruct (search_candidates _ _ _ _ _ _ Hin)
    as (results & w1 & page & Hs & Hp & Heq).
  rewrite Heq, sort_by_score_perm in Hin.
  apply list_elem_of_omap in Hin as (t & Ht & Hscore).
  unfold score_track in Hscore.
  destruct (get_artist_name t) as [a|] eqn:Ha; [|done].
  destruct (get_name t) as [n|] eqn:Hn; [|done].
  injection Hscore as <- <-.
  by exists results, w1, page, a, n.
Qed.

(** X15. The candidates that [search_lastfm_tracks] returns are in
    descending order of score and at most [limit]; each is one of the first
    [limit] tracks of the page whose artist and title could be read, with
    the similarity of its comparison string to that of the query. *)
Theorem search_results_shape (artist title : text) (limit : nat) (w : W)
    (log : list query) :
  StronglySorted (λ a b : lfm_track * Z, b.2 ≤ a.2)
    (search_lastfm_tracks net fuzz_ratio artist title limit w log).1.1
  ∧ (length (search_lastfm_tracks net fuzz_ratio artist title limit w log).1.1
     ≤ limit)%nat
  ∧ ∀ track score,
      (track, score)
      ∈ (search_lastfm_tracks net fuzz_ratio artist title limit w log).1.1 →
      ∃ results w1 page a n,
        search_for_track net artist title w = (Ok results, w1)
        ∧ (get_next_page net results w1).1 = Ok page
        ∧ track ∈ take limit page
        ∧ get_artist_name track = Ok a
        ∧ get_name track = Ok n
        ∧ score = fuzz_ratio (comparison_string artist title)
                    (comparison_string a n).
Proof.
  split_and!.
  - unfold search_lastfm_tracks.
    destruct (search_for_track net artist title w) as [[results|] w1];
      [|constructor].
    destruct (get_next_page net results w1) as [[page|] w2]; [|constructor].
    apply sort_by_score_sorted.
  - unfold search_lastfm_tracks.
    destruct (search_for_track net artist title w) as [[results|] w1];
      [|simpl; lia].
    destruct (get_next_page net results w1) as [[page|] w2]; [|simpl; lia].
    cbn [fst]. rewrite sort_by_score_perm.
    etrans; [apply length_omap_le|]. rewrite length_take. lia.
  - intros track score. apply search_member.
Qed.

Variable choose : list (lfm_track * Z) → W → exc (option lfm_track) * W.

(** A match comes from the scoring stage, which is given candidates of the
    last search that score 60 or more. *)
Lemma find_shortlist (artist title album original_artist original_title : text)
    (w : W) (t : lfm_track) :
  (find_best_track_match net fuzz_ratio choose artist title album
     original_artist original_title w).1.1 = Ok (Some t) →
  ∃ (q : query) w0 log0 good w1,
    q ∈ (find_best_track_match net fuzz_ratio choose artist title album
           original_artist original_title w).2
    ∧ (choose good w1).1 = Ok (Some t)
    ∧ ∀ c, c ∈ good →
           60 ≤ c.2
           ∧ c ∈ (search_lastfm_tracks net fuzz_ratio q.1 q.2 15 w0 log0).1.1.
Proof.
  unfold find_best_track_match.
  pose proof (search_log net fuzz_ratio artist title 15 w []) as Hlog1.
  destruct (search_lastfm_tracks net fuzz_ratio artist title 15 w [])
    as [[cands w1] log1] eqn:Hs1.
  simpl in Hlog1. subst log1.
  assert (∀ (q : query) w0 log0 cands w1 (log : list query),
            q ∈ log →
            cands = (search_lastfm_tracks net fuzz_ratio q.1 q.2 15 w0 log0).1.1 →
            (match cands with
             | [] => (Ok None, w1, log)
             | best_candidate :: _ =>
                 match filter (λ c : lfm_track * Z, 80 ≤ c.2) cands with
                 | [] =>
                     if 60 <=? best_candidate.2
                     then let '(r, w) := choose [best_candidate] w1 in
                          (r, w, log)
                     else (Ok None, w1, log)
                 | _ :: _ =>
                     let '(r, w) :=
                       choose (filter (λ c : lfm_track * Z, 80 ≤ c.2) cands)
                         w1 in
                     (r, w, log)
                 end
             end).1.1 = Ok (Some t) →
            ∃ good w2,
              (choose good w2).1 = Ok (Some t)
              ∧ ∀ c, c ∈ good →
                     60 ≤ c.2
                     ∧ c ∈ (search_lastfm_tracks net fuzz_ratio q.1 q.2 15
                              w0 log0).1.1) as Hstage.
  { intros q w0 log0 cs w2 log Hq Hcs. destruct cs as [|best cs]; [done|].
    destruct (filter _ (best :: cs)) as [|g good] eqn:Hgood.
    - destruct (Z.leb_spec 60 best.2) as [Hle|]; [|done].
      destruct (choose [best] w2) as [r w3] eqn:Hch. cbn [fst].
      intros ->. exists [best], w2. rewrite Hch. split; [done|].
      intros c ->%list_elem_of_singleton. split; [done|].
      rewrite <- Hcs. left.
    - destruct (choose (g :: good) w2) as [r w3] eqn:Hch. cbn [fst].
      intros ->. exists (g :: good), w2. rewrite Hch. split; [done|].
      intros c Hc. rewrite <- Hgood in Hc.
      apply list_elem_of_filter in Hc as [Hc80 Hc]. split; [lia|].
      by rewrite <- Hcs. }
  destruct (negb (truthy_list cands) && truthy (PStr original_artist)
            && truthy (PStr original_title)) eqn:Hretry.
  - pose proof (search_log net fuzz_ratio original_artist original_title 15
                  w1 ([] ++ [(artist, title)])) as Hlog2.
    destruct (search_lastfm_tracks net fuzz_ratio original_artist
                original_title 15 w1 _) as [[cands2 w2] log2] eqn:Hs2.
    simpl in Hlog2. subst log2. intros Hres.
    assert (∀ x : exc (option lfm_track) * W * list query,
              x.1.1 = Ok (Some t) →
              x.2 = [(artist, title); (original_artist, original_title)] →
              (original_artist, original_title) ∈ x.2) as Hin.
    { intros x _ ->. right. left. }
    destruct (Hstage (original_artist, original_title) w1 [(artist, title)]
                cands2 w2
                [(artist, title); (original_artist, original_title)])
      as (good & w3 & Hch & Hgood).
    + right. left.
    + cbn [fst snd]. change ([] ++ [(artist, title)]) with [(artist, title)] in Hs2.
      by rewrite Hs2.
    + exact Hres.
    + exists (original_artist, original_title), w1, [(artist, title)], good, w3.
      split_and!; [|done|done].
      clear -Hres. destruct cands2 as [|best cs]; [done|].
      destruct (filter _ (best :: cs)).
      * destruct (60 <=? best.2); [|done].
        destruct (choose [best] w2). right. left.
      * destruct (choose _ w2). right. left.
  - intros Hres.
    destruct (Hstage (artist, title) w [] cands w1 [(artist, title)])
      as (good & w3 & Hch & Hgood).
    + left.
    + cbn [fst snd]. by rewrite Hs1.
    + exact Hres.
    + exists (artist, title), w, [], good, w3. split_and!; [|done|done].
      clear -Hres. destruct cands as [|best cs]; [done|].
      destruct (filter _ (best :: cs)).
      * destruct (60 <=? best.2); [|done]. destruct (choose [best] w1). left.
      * destruct (choose _ w1). left.
Qed.

End SearchFacts.

Section ScoringFacts.

Import Matcher Scoring.

#[local] Open Scope Z_scope.

Context {W R F : Type}.
Variable net : @network W R.
Variable fuzz_ratio : text → text → Z.
Variable get_listener_count : lfm_track → W → exc pyval * W.
Variable printable : lfm_track → bool.
Variable weighted_score : Z → Z → Z → exc F.
Variable gt : F → F → bool.
Variable minus_one : F.
Variable track_eq : lfm_track → lfm_track → exc bool.

Lemma with_popularity_candidates (good : list (lfm_track * Z)) :
  ∀ (w : W) (c : lfm_track * Z * Z),
  c ∈ (with_popularity get_listener_count printable good w).1 → c.1 ∈ good.
Proof.
  induction good as [|[track sim] good IH]; intros w c.
  { cbn [with_popularity fst]. by intros ?%elem_of_nil. }
  cbn [with_popularity].
  destruct (get_track_popularity get_listener_count printable track w)
    as [pop w1].
  specialize (IH w1 c).
  destruct (with_popularity get_listener_count printable good w1) as [l w2].
  cbn [fst] in *. destruct pop as [pop|].
  - intros [->|Hin]%elem_of_cons; [left|right; by apply IH].
  - intros Hin. right. by apply IH.
Qed.

Lemma pick_best_member (l : list (lfm_track * Z * Z)) (max_pop : Z) :
  ∀ (best : option lfm_track) (score : F) (t : lfm_track),
  pick_best weighted_score gt l max_pop best score = Ok (Some t) →
  best = Some t ∨ t ∈ l.*1.*1.
Proof.
  induction l as [|[[track sim] pop] l IH]; intros best score t.
  - intros [= ->]. by left.
  - cbn [pick_best]. destruct (weighted_score sim pop max_pop) as [x|]; [|done].
    unfold mbind at 1, exc_bind at 1. rewrite !fmap_cons.
    destruct (gt x score); intros Hbest; apply IH in Hbest as [Hbest|Hin].
    + right. injection Hbest as <-. left.
    + right. by right.
    + by left.
    + right. by right.
Qed.

(** The scoring stage returns one of the candidates it was given. *)
Lemma select_best_member (good : list (lfm_track * Z)) (w : W)
    (t : lfm_track) :
  (select_best get_listener_count printable weighted_score gt minus_one
     track_eq good w).1 = Ok (Some t) →
  t ∈ good.*1.
Proof.
  unfold select_best.
  pose proof (with_popularity_candidates good w) as Hfst.
  destruct (with_popularity get_listener_count printable good w)
    as [cwp w1].
  cbn [fst] in Hfst. destruct cwp as [|c cwp]; [done|].
  cbn [fst]. intros Hres.
  enough (t ∈ (c :: cwp).*1.*1) as Hin.
  { apply list_elem_of_fmap in Hin as (c1 & -> & Hin).
    apply list_elem_of_fmap in Hin as (c2 & -> & Hin).
    apply list_elem_of_fmap. exists c2.1. split; [done|]. by apply Hfst. }
  revert Hres.
  destruct (pick_best weighted_score gt (c :: cwp) _ None minus_one)
    as [[best|]|] eqn:Hpick; [|done|done].
  unfold mbind at 1, exc_bind at 1. intros Hres.
  assert (best = t) as ->.
  { destruct (get_artist_name best); [|done].
    destruct (get_name best); [|done].
    unfold mbind, exc_bind in Hres.
    destruct (next_popularity track_eq best (c :: cwp)); [|done].
    congruence. }
  by apply pick_best_member in Hpick as [?|Hin].
Qed.

(** X16. With the scoring stage of the source in place, a match that
    [find_best_track_match] returns is a track whose names were read from a
    page of the service and whose comparison string scores 60 or more
    against that of one of the queries sent. *)
Theorem match_scores_at_least_60
    (artist title album original_artist original_title : text) (w : W)
    (t : lfm_track) :
  (find_best_track_match net fuzz_ratio
     (select_best get_listener_count printable weighted_score gt minus_one
        track_eq)
     artist title album original_artist original_title w).1.1
  = Ok (Some t) →
  ∃ (q : query) a n,
    q ∈ (find_best_track_match net fuzz_ratio
           (select_best get_listener_count printable weighted_score gt
              minus_one track_eq)
           artist title album original_artist original_title w).2
    ∧ get_artist_name t = Ok a
    ∧ get_name t = Ok n
    ∧ 60 ≤ fuzz_ratio (comparison_string q.1 q.2) (comparison_string a n).
Proof.
  intros Hres.
  apply find_shortlist in Hres
    as (q & w0 & log0 & good & w1 & Hq & Hch & Hgood).
  apply select_best_member in Hch.
  apply list_elem_of_fmap in Hch as ([t' score] & -> & Hin).
  destruct (Hgood _ Hin) as [Hscore Hc]. simpl in *.
  apply search_member in Hc
    as (results & w2 & page & a & n & _ & _ & _ & Ha & Hn & ->).
  by exists q, a, n.
Qed.

End ScoringFacts.

(** ** Carrying out the plan *)

Section RunFacts.

Import History Run.

#[local] Open Scope Z_scope.

Context {W : Type}.
Variable scrobble_track : PlayRecord.t → option Z → W → bool * W.
Variable time : W → Z.
Variable sleep : W → W.
Variable load_scrobble_history : W → store * W.
Variable save_scrobble_history : store → W → W.
Variable save_last_scrobbled : text → W → W.
Variable formattable : Z → bool.

(** The content of the history file, as the program reads it. *)
Let file (w : W) : store := (load_scrobble_history w).1.

Abbreviation loop :=
  (scrobble_loop scrobble_track time sleep load_scrobble_history
     save_scrobble_history formattable).

(** The counters follow the recorded plays, which are taken from the plan
    in order. *)
Lemma scrobble_loop_counters : ∀ (plan : list (PlayRecord.t * Z))
    (st : loop_state W),
  ∃ done : list (PlayRecord.t * Z),
    recorded (loop plan st) = recorded st ++ done
    ∧ sublist done plan
    ∧ successful_scrobbles (loop plan st)
      = (successful_scrobbles st + length done)%nat
    ∧ most_recent_track_id (loop plan st)
      = match last done with
        | Some p => Some (PlayRecord.videoId p.1)
        | None => most_recent_track_id st
        end.
Proof.
  induction plan as [|[track ts] plan IH]; intros st.
  - exists []. cbn. rewrite app_nil_r. split_and!; try done; lia.
  - cbn [scrobble_loop]. destruct (formattable ts).
    2: { exists []. cbn. rewrite app_nil_r.
         split_and!; try done; try apply sublist_nil_l; lia. }
    destruct (scrobble_track track (Some ts) (world st)) as [ok w1].
    cbv zeta.
    match goal with |- context [loop plan ?s] => set (st' := s) end.
    assert (recorded st' = recorded st ++ (if ok then [(track, ts)] else [])
            ∧ successful_scrobbles st'
              = (successful_scrobbles st + (if ok then 1 else 0))%nat
            ∧ most_recent_track_id st'
              = if ok then Some (PlayRecord.videoId track)
                else most_recent_track_id st) as (Hr & Hc & Hm).
    { subst st'. destruct ok, plan; cbn; rewrite ?app_nil_r;
        split_and!; try done; lia. }
    destruct (IH st') as (done & Hrec & Hsub & Hcount & Hrecent).
    exists ((if ok then [(track, ts)] else []) ++ done).
    rewrite Hrec, Hcount, Hrecent, Hr, Hc, Hm. split_and!.
    + by rewrite app_assoc.
    + destruct ok; simpl; [by apply sublist_skip|by apply sublist_cons].
    + rewrite length_app. destruct ok; simpl; lia.
    + destruct ok; simpl; [|done]. rewrite last_cons. by destruct (last done).
Qed.


Hypothesis load_keeps_file : ∀ w, file (load_scrobble_history w).2 = file w.
Hypothesis save_writes_or_fails : ∀ s w,
  file (save_scrobble_history s w) = s
  ∨ file (save_scrobble_history s w) = file w
  ∨ file (save_scrobble_history s w) = ∅.
Hypothesis scrobble_keeps_file : ∀ track ts w,
  file (scrobble_track track ts w).2 = file w.
Hypothesis sleep_keeps_file : ∀ w, file (sleep w) = file w.
Hypothesis legacy_keeps_file : ∀ track_id w,
  file (save_last_scrobbled track_id w) = file w.

Lemma scrobble_loop_file (w0 : W) : ∀ (plan : list (PlayRecord.t * Z))
    (st : loop_state W),
  (∀ k e, file (world st) !! k = Some e →
     file w0 !! k = Some e
     ∨ ∃ track ts, (track, ts) ∈ recorded st
                   ∧ k = scrobble_key (PlayRecord.videoId track) ts) →
  ∀ k e, file (world (loop plan st)) !! k = Some e →
    file w0 !! k = Some e
    ∨ ∃ track ts, (track, ts) ∈ recorded (loop plan st)
                  ∧ k = scrobble_key (PlayRecord.videoId track) ts.
Proof.
  induction plan as [|[track ts] plan IH]; intros st Hst; [done|].
  cbn [scrobble_loop]. destruct (formattable ts); [|done].
  pose proof (scrobble_keeps_file track (Some ts) (world st)) as Hs.
  destruct (scrobble_track track (Some ts) (world st)) as [ok w1].
  cbn [snd] in Hs. apply IH. clear IH.
  assert (∀ k e,
            file (if ok then Run.add_to_scrobble_history time
                               load_scrobble_history save_scrobble_history
                               track ts w1
                  else w1) !! k = Some e →
            file w0 !! k = Some e
            ∨ ∃ track' ts',
                (track', ts')
                ∈ (if ok then recorded st ++ [(track, ts)] else recorded st)
                ∧ k = scrobble_key (PlayRecord.videoId track') ts') as Hstep.
  { intros k e. destruct ok.
    - unfold Run.add_to_scrobble_history.
      pose proof (load_keeps_file w1) as Hl. unfold file at 2 in Hl.
      destruct (load_scrobble_history w1) as [history w2] eqn:Hload.
      cbn [fst snd] in Hl.
      assert (history = file w1) as Hh by (unfold file; by rewrite Hload).
      destruct (save_writes_or_fails
                  (History.add_to_scrobble_history (time w2) track ts history)
                  w2)
        as [Hw|[Hw|Hw]]; rewrite Hw.
      + intros Hk. apply add_to_scrobble_history_lookup in Hk as [_ Hk].
        case_decide as Hkey.
        * right. exists track, ts. split; [|done].
          apply elem_of_app. right. left.
        * rewrite Hh, Hs in Hk. destruct (Hst k e Hk) as [?|(t' & ts' & Hin & ?)];
            [by left|]. right. exists t', ts'. split; [|done].
          apply elem_of_app. by left.
      + rewrite Hl, Hh, Hs. intros Hk.
        destruct (Hst k e Hk) as [?|(t' & ts' & Hin & ?)]; [by left|].
        right. exists t', ts'. split; [|done]. apply elem_of_app. by left.
      + by rewrite lookup_empty.
    - rewrite Hs. apply Hst. }
  destruct plan; destruct ok; cbn [world recorded];
    rewrite ?sleep_keeps_file; exact Hstep.
Qed.


End RunFacts.

(** ** What [scrobble_track] submits *)

Section SubmitFacts.

Import Matcher Submit TextNormalizer.

#[local] Open Scope Z_scope.

Context {W R : Type}.
Variable net : @network W R.
Variable fuzz_ratio : text → text → Z.
Variable choose : list (lfm_track * Z) → W → exc (option lfm_track) * W.
Variable time : W → Z.
Variable scrobble : text → text → Z → text → W → exc () * W.
Variable matched_album_of : lfm_track → text → W → text * W.
Variable formattable : Z → bool.

(** X19. [scrobble_track] calls [network.scrobble] at most once, and once
    when it returns true.  The call carries the given timestamp, or the
    current time when none or zero is given; its artist and title are the
    names of the match, or, when there is no match, the cleaned artist and
    title with the cleaned album. *)
Theorem scrobble_track_submission (track : PlayRecord.t)
    (custom_timestamp : option Z) (w : W) :
  let result :=
    scrobble_track net fuzz_ratio choose time scrobble matched_album_of
      formattable track custom_timestamp w in
  let cleaned :=
    clean_track_metadata (PlayRecord.artist track) (PlayRecord.title track)
      (default [] (PlayRecord.album track)) in
  let found :=
    (find_best_track_match net fuzz_ratio choose cleaned.1.1 cleaned.1.2
       cleaned.2 (PlayRecord.artist track) (PlayRecord.title track) w).1.1 in
  (length result.2 ≤ 1)%nat
  ∧ (result.1.1 = true → length result.2 = 1%nat)
  ∧ ∀ artist title ts album,
      (artist, title, ts, album) ∈ result.2 →
      ts = effective_timestamp time custom_timestamp w
      ∧ ((∃ best, found = Ok (Some best)
                  ∧ get_artist_name best = Ok artist
                  ∧ get_name best = Ok title)
         ∨ (found = Ok None ∧ (artist, title, album) = cleaned)).
Proof.
  cbv zeta. unfold scrobble_track.
  destruct (clean_track_metadata _ _ _) as [[cleaned_artist cleaned_title]
    cleaned_album].
  cbn [fst snd].
  destruct (find_best_track_match _ _ _ _ _ _ _ _ _) as [[found w1] log].
  cbn [fst snd]. destruct found as [[best|]|].
  - destruct (get_artist_name best) as [a|] eqn:Ha;
      [|split_and!; [simpl; lia|done|by intros ???? ?%elem_of_nil]].
    destruct (get_name best) as [n|] eqn:Hn;
      [|split_and!; [simpl; lia|done|by intros ???? ?%elem_of_nil]].
    destruct (matched_album_of best cleaned_album w1) as [al w2].
    unfold submit. destruct (scrobble a n _ al w2) as [r w3].
    cbn [fst snd]. split_and!; [done|done|].
    intros artist title ts album [= -> -> -> ->]%list_elem_of_singleton.
    split; [done|]. left. by exists best.
  - unfold submit.
    destruct (scrobble cleaned_artist cleaned_title _ cleaned_album w1)
      as [r w3].
    cbn [fst snd]. split_and!; [done|done|].
    intros artist title ts album [= -> -> -> ->]%list_elem_of_singleton.
    split; [done|]. by right.
  - split_and!; [simpl; lia|done|by intros ???? ?%elem_of_nil].
Qed.

End SubmitFacts.

(** ** The further properties on sample data *)

Section MoreSamples.

Import History Guard Engine Matcher TextNormalizer Prune Sample Example.

#[local] Open Scope Z_scope.

Lemma keyed_singleton (track_id : text) (ts : Z) (e : entry) :
  keyed_by_ids_of_length (length track_id)
    ({[ scrobble_key track_id ts := e ]} : store).
Proof.
  intros k e' Hk. apply lookup_singleton_Some in Hk as [<- _].
  by exists track_id, ts.
Qed.

Lemma prune_only_removes_and_composes_witness :
  cleanup_old_history (now + 60) (cleanup_old_history now at_the_cutoff)
  = cleanup_old_history (now + 60) at_the_cutoff.
Proof.
  destruct (prune_only_removes_and_composes now (now + 60) at_the_cutoff)
    as (_ & _ & Hcompose & _).
  apply Hcompose. by vm_compute.
Defined.

Lemma prune_steps_save_the_pruned_store_witness :
  (prune_on_start now played_before).2 = None.
Proof.
  destruct (prune_steps_save_the_pruned_store now played_before)
    as (_ & _ & Hnone & _).
  apply Hnone. by vm_compute.
Defined.

Lemma recorded_play_is_found_witness :
  (∃ e, add_to_scrobble_history now looped (now - 120) played_before
          !! scrobble_key (PlayRecord.videoId looped) (now - 120) = Some e
        ∧ scrobbled_at e = Some (now - 120)
        ∧ duration_seconds e = Duration.get_track_duration_seconds looped
        ∧ artist e = PlayRecord.artist looped
        ∧ title e = PlayRecord.title looped)
  ∧ ∃ prev,
      get_track_scrobble_timestamps (PlayRecord.videoId looped)
        (add_to_scrobble_history now looped (now - 120) played_before)
      = Ok prev
      ∧ now - 120 ∈ prev.
Proof.
  apply (recorded_play_is_found now looped (now - 120) played_before).
  - apply timestamped_singleton. by eexists.
  - by vm_compute.
Defined.

Lemma stale_play_leaves_no_entry_witness :
  add_to_scrobble_history now looped (now - 15 * 86400) played_before
    !! scrobble_key (PlayRecord.videoId looped) (now - 15 * 86400) = None
  ∧ ∀ k, k ≠ scrobble_key (PlayRecord.videoId looped) (now - 15 * 86400) →
         add_to_scrobble_history now looped (now - 15 * 86400) played_before
           !! k
         = cleanup_old_history now played_before !! k.
Proof.
  apply (stale_play_leaves_no_entry now looped (now - 15 * 86400)
           played_before).
  by vm_compute.
Defined.

Lemma recorded_play_blocks_close_proposal_witness :
  ∃ reason,
    can_scrobble_track looped now
      (add_to_scrobble_history now looped (now - 120) played_before)
    = Ok (false, reason).
Proof.
  apply (recorded_play_blocks_close_proposal now looped (now - 120) now
           played_before).
  - apply timestamped_singleton. by eexists.
  - by vm_compute.
  - by vm_compute.
Defined.

Lemma longer_id_counts_as_prior_witness :
  ∃ prev, get_track_scrobble_timestamps (L "abc") mixed = Ok prev
          ∧ 1000 ∈ prev.
Proof.
  exists [1000]. split; [by vm_compute|].
  apply (longer_id_counts_as_prior (L "abc") (L "def") 1000 1000 mixed
           (entry_at 1000) [1000]); by vm_compute.
Defined.

Lemma equal_length_ids_do_not_mix_witness :
  1000 ∈ [1000]
  ↔ ∃ ts e, long_at_1000 !! scrobble_key (L "long_song") ts = Some e
            ∧ scrobbled_at e = Some 1000.
Proof.
  apply (equal_length_ids_do_not_mix 9 (L "long_song") long_at_1000 [1000]).
  - apply (keyed_singleton (L "long_song") 1000).
  - reflexivity.
  - by vm_compute.
Defined.

Lemma planning_raises_on_missing_timestamp_witness :
  find_tracks_to_scrobble now [long_song; looped] untimed = Raised.
Proof.
  destruct (planning_raises_on_missing_timestamp now [long_song; looped]
              untimed) as [_ Hraises].
  apply (Hraises looped (scrobble_key (L "dQw4w9WgXcQ") 1000)
           (Entry (L "Rick Astley") (L "Never Gonna Give You Up") [] None
              210 [])).
  - right. left.
  - by vm_compute.
  - by vm_compute.
  - done.
Defined.

Lemma acceptance_survives_removal_witness :
  ∃ reason', can_scrobble_track looped now ∅ = Ok (true, reason').
Proof.
  apply (acceptance_survives_removal looped now played_before ∅
           (L "Sufficient gap from 1 previous scrobbles")).
  - apply map_empty_subseteq.
  - by vm_compute.
Defined.

Lemma plan_is_ordered_and_bounded_witness :
  sublist [(looped, now - 120); (looped, now)].*1 (reverse [looped; looped])
  ∧ Nat.le (length [(looped, now - 120); (looped, now)])
      (length [looped; looped])
  ∧ (∀ track ts, (track, ts) ∈ [(looped, now - 120); (looped, now)] →
       track ∈ [looped; looped]
       ∧ now - (Z.of_nat (length [looped; looped]) - 1) * 120 ≤ ts ≤ now)
  ∧ StronglySorted Z.lt [(looped, now - 120); (looped, now)].*2.
Proof.
  apply (plan_is_ordered_and_bounded now [looped; looped] ∅).
  by vm_compute.
Defined.

Lemma verdict_reason_witness :
  ([1000] = [] → L "Too close to previous scrobble (5m gap, need 8m)"
                 = L "No previous scrobbles found")
  ∧ ([1000] ≠ [] → false = true →
     L "Too close to previous scrobble (5m gap, need 8m)"
     = L "Sufficient gap from "
         ++ Py.str_of_Z (Z.of_nat (length [1000]))
         ++ L " previous scrobbles")
  ∧ (false = false →
     ∃ p, p ∈ [1000]
          ∧ Z.abs (1300 - p)
            < Duration.get_track_duration_seconds long_song + 30
          ∧ (∀ q, q ∈ [1000] →
               Z.abs (1300 - q)
               < Duration.get_track_duration_seconds long_song + 30 →
               p ≤ q)
          ∧ L "Too close to previous scrobble (5m gap, need 8m)"
            = L "Too close to previous scrobble ("
                ++ Py.str_of_Z (Z.abs (1300 - p) / 60)
                ++ L "m gap, need "
                ++ Py.str_of_Z
                     ((Duration.get_track_duration_seconds long_song + 30)
                      / 60)
                ++ L "m)").
Proof.
  apply (verdict_reason long_song 1300 long_at_1000 [1000] false
           (L "Too close to previous scrobble (5m gap, need 8m)"));
    by vm_compute.
Defined.

Lemma search_results_shape_witness :
  ∃ results w1 page a n,
    search_for_track one_hit (L "Drake") (L "God's Plan") () = (Ok results, w1)
    ∧ (get_next_page one_hit results w1).1 = Ok page
    ∧ gods_plan ∈ take 15 page
    ∧ get_artist_name gods_plan = Ok a
    ∧ get_name gods_plan = Ok n
    ∧ 100 = full_score (comparison_string (L "Drake") (L "God's Plan"))
              (comparison_string a n).
Proof.
  destruct (search_results_shape one_hit full_score (L "Drake")
              (L "God's Plan") 15 () []) as (_ & _ & Hmember).
  apply Hmember. vm_compute. left.
Defined.

Lemma match_scores_at_least_60_witness :
  ∃ (q : query) a n,
    q ∈ (find_best_track_match one_hit full_score select (L "Drake")
           (L "God's Plan") [] (L "Drake VEVO")
           (L "God's Plan (Official Video)") ()).2
    ∧ get_artist_name gods_plan = Ok a
    ∧ get_name gods_plan = Ok n
    ∧ 60 ≤ full_score (comparison_string q.1 q.2) (comparison_string a n).
Proof.
  apply (match_scores_at_least_60 one_hit full_score five_listeners
           (λ _, true) tenths Z.gtb (-1) same_track).
  by vm_compute.
Defined.



Lemma scrobble_track_submission_witness :
  length submit_looped.2 = 1%nat.
Proof.
  destruct (scrobble_track_submission finds_nothing no_score choose_none
              (λ _, now) accept_all (λ _ album w, (album, w)) (λ _, true)
              looped (Some now) ()) as (_ & Hone & _).
  apply Hone. by vm_compute.
Defined.

End MoreSamples.
